(** * goggles: the crawl scheduler and the retrieval engine

    A shallow embedding of [python/mass_crawler.py] and
    [python/advanced_search.py], and the properties of the written
    specification settled against it.

    Conventions of the embedding.
    - A Python [str] is a sequence of Unicode code points: [list N].
    - [str.lower] is the interpreter's Unicode table; it is taken as a
      parameter wherever the source calls it, with [ascii_lower] as the
      instance used to run examples.
    - Library calls whose result the source only consumes (numpy's [argsort],
      the MySQL engine's [LIKE], [LENGTH] and [ORDER BY], the comparison of
      titles by the [UNIQUE] key of the table) are interfaces given as type
      classes, each with an executable instance.  A theorem holds for every
      instance; an example runs one.
    - A Python call either returns a value or raises: [outcome]. *)

From Stdlib Require Import ZArith NArith QArith List Lia Permutation Sorted.
From Stdlib Require Import Ascii String.
From stdpp Require Import gmap list.

Import ListNotations.
Local Open Scope nat_scope.

(* ===================================================================== *)
(** ** Python strings *)
(* ===================================================================== *)

Module PyStr.

(** A code point. *)
Definition cp := N.

(** A Python [str]. *)
Definition str := list N.

(** The code points of a literal of the source (all of them are ASCII). *)
Definition lit (s : string) : str := map N_of_ascii (list_ascii_of_string s).

(** [str.isspace] on one code point, which is also what [\s] matches in a
    [str] pattern and what [str.split()] splits on. *)
Definition is_space (c : cp) : bool :=
  ((9 <=? c) && (c <=? 13) || (28 <=? c) && (c <=? 32)
   || (c =? 133) || (c =? 160) || (c =? 5760)
   || (8192 <=? c) && (c <=? 8202)
   || (c =? 8232) || (c =? 8233) || (c =? 8239) || (c =? 8287)
   || (c =? 12288))%N.

Definition is_upper (c : cp) : bool := ((65 <=? c) && (c <=? 90))%N.
Definition is_lower (c : cp) : bool := ((97 <=? c) && (c <=? 122))%N.
Definition is_digit (c : cp) : bool := ((48 <=? c) && (c <=? 57))%N.

(** The class [a-zA-Z0-9] of the pattern in [preprocess_text]. *)
Definition is_alnum (c : cp) : bool := is_lower c || is_upper c || is_digit c.

(** The space character. *)
Definition SP : cp := 32%N.

(** [s.split()]: the maximal runs of non-whitespace code points. *)
Fixpoint split (s : str) : list str :=
  match s with
  | [] => []
  | c :: s' =>
      if is_space c then split s'
      else match s' with
           | [] => [[c]]
           | d :: _ =>
               if is_space d then [c] :: split s'
               else match split s' with
                    | t :: ts => (c :: t) :: ts
                    | [] => [[c]]
                    end
           end
  end.

(** [sep.join(parts)]. *)
Fixpoint join (sep : str) (parts : list str) : str :=
  match parts with
  | [] => []
  | [t] => t
  | t :: ts => t ++ sep ++ join sep ts
  end.

(** [pat == s[:len(pat)]]. *)
Fixpoint startswith (pat s : str) : bool :=
  match pat, s with
  | [], _ => true
  | _ :: _, [] => false
  | a :: pat', b :: s' => (a =? b)%N && startswith pat' s'
  end.

(** [pat in s]: substring search. *)
Fixpoint contains (pat s : str) : bool :=
  startswith pat s ||
  match s with
  | [] => false
  | _ :: s' => contains pat s'
  end.

(** [str.lower] restricted to ASCII input: the instance used to run
    examples. *)
Definition ascii_lower (s : str) : str :=
  map (fun c => if is_upper c then (c + 32)%N else c) s.

(** The two facts about [str.lower] that [preprocess_text] relies on. *)
Class Lower (lower : str -> str) : Prop := {
  lower_no_upper : forall s c, In c (lower s) -> is_upper c = false;
  lower_plain : forall s,
    Forall (fun c => is_lower c || is_digit c || (c =? SP)%N = true) s ->
    lower s = s
}.

End PyStr.

Import PyStr.

(* ===================================================================== *)
(** ** [AdvancedSearchEngine.preprocess_text] *)
(* ===================================================================== *)

Section Preprocess.

Variable lower : str -> str.

(** [re.sub(r'[^a-zA-Z0-9\s]', ' ', text)]. *)
Definition strip_special (text : str) : str :=
  map (fun c => if is_alnum c || is_space c then c else SP) text.

(** [' '.join(text.split())]. *)
Definition squeeze (text : str) : str := join [SP] (split text).

Definition preprocess_text (text : str) : str :=
  match text with
  | [] => []
  | _ => squeeze (strip_special (lower text))
  end.

End Preprocess.

(* ===================================================================== *)
(** ** Python calls: a value or an exception *)
(* ===================================================================== *)

Inductive exn := ValueError | IndexError | KeyboardInterrupt | DatabaseError.

Inductive outcome (A : Type) :=
| Returns (a : A)
| Raises (e : exn).
Arguments Returns {A} a.
Arguments Raises {A} e.

Definition bind_outcome {A B} (o : outcome A) (k : A -> outcome B) : outcome B :=
  match o with
  | Returns a => k a
  | Raises e => Raises e
  end.

(** [l[k:]] for a Python list or array [l] and an integer [k]. *)
Definition py_slice_from {A} (k : Z) (l : list A) : list A :=
  let n := Z.of_nat (length l) in
  let start := if (k <? 0)%Z then Z.max 0 (n + k) else k in
  skipn (Z.to_nat start) l.

(** [l[:k]]. *)
Definition py_slice_to {A} (k : Z) (l : list A) : list A :=
  let n := Z.of_nat (length l) in
  let stop := if (k <? 0)%Z then Z.max 0 (n + k) else k in
  firstn (Z.to_nat stop) l.

(** [l.index(x)]: the first position of [x]; [None] stands for the
    [ValueError] Python raises when [x] is absent. *)
Fixpoint list_index (x : Z) (l : list Z) : option nat :=
  match l with
  | [] => None
  | y :: l' => if (y =? x)%Z then Some 0 else option_map S (list_index x l')
  end.

(* ===================================================================== *)
(** ** Sorting interfaces *)
(* ===================================================================== *)

(** Insertion sort that keeps equal elements in their input order; it is
    what the executable instances below run. *)
Fixpoint insert_by {A} (leb : A -> A -> bool) (x : A) (l : list A) : list A :=
  match l with
  | [] => [x]
  | y :: l' => if leb x y then x :: l else y :: insert_by leb x l'
  end.

Fixpoint isort_by {A} (leb : A -> A -> bool) (l : list A) : list A :=
  match l with
  | [] => []
  | x :: l' => insert_by leb x (isort_by leb l')
  end.

(** [a > b] on scores. *)
Definition Qgtb (a b : Q) : bool := negb (Qle_bool a b).

(** The score at position [i] of a similarity array. *)
Definition score_at (v : list Q) (i : nat) : Q := nth i v 0%Q.

(** numpy's [v.argsort()]: some permutation of the positions of [v] along
    which the values ascend.  The default sort kind gives no promise on the
    order of equal values. *)
Class Argsort := {
  argsort : list Q -> list nat;
  argsort_perm : forall v, Permutation (argsort v) (seq 0 (length v));
  argsort_sorted : forall v,
    StronglySorted (fun i j => (score_at v i <= score_at v j)%Q) (argsort v)
}.

(** An executable argsort, which leaves equal values in position order.  It
    is one instance of the interface; numpy's default sort kind is another
    and orders equal values as it pleases. *)
Definition stable_argsort (v : list Q) : list nat :=
  isort_by (fun i j => Qle_bool (score_at v i) (score_at v j)) (seq 0 (length v)).

(* ===================================================================== *)
(** ** [AdvancedSearchEngine]: ranking *)
(* ===================================================================== *)

(** The fitted vectorizer and matrix, seen through the two calls the engine
    makes on them. *)
Record SearchModel := {
  article_ids : list Z;
  (** [cosine_similarity(vectorizer.transform([q]), tfidf_matrix).flatten()] *)
  query_similarities : str -> list Q;
  (** [cosine_similarity(tfidf_matrix[i], tfidf_matrix).flatten()] *)
  row_similarities : nat -> list Q
}.

(** One row per indexed article in every similarity array. *)
Definition well_formed (m : SearchModel) : Prop :=
  (forall q, length (query_similarities m q) = length (article_ids m)) /\
  (forall i, length (row_similarities m i) = length (article_ids m)).

(** [SELECT title, summary, url, word_count FROM wiki_articles WHERE id = %s]. *)
Record row := {
  row_title : str;
  row_summary : str;
  row_url : str;
  row_word_count : Z
}.

Record hit := {
  hit_id : Z;
  hit_title : str;
  hit_summary : str;
  hit_url : str;
  hit_word_count : Z;
  hit_score : Q
}.

Definition mk_hit (id : Z) (r : row) (score : Q) : hit :=
  {| hit_id := id; hit_title := row_title r; hit_summary := row_summary r;
     hit_url := row_url r; hit_word_count := row_word_count r;
     hit_score := score |}.

(** The literal [0.01] is the double 5764607523034235 / 2^59, slightly above
    one hundredth. *)
Definition min_relevance : Q := 5764607523034235 # 576460752303423488.

(** The literal [0.1] is the double 3602879701896397 / 2^55. *)
Definition min_similarity : Q := 3602879701896397 # 36028797018963968.

(** The loop over [top_indices] of [advanced_search]. *)
Fixpoint collect_hits (ids : list Z) (db : Z -> option row) (sims : list Q)
    (top_indices : list nat) : outcome (list hit) :=
  match top_indices with
  | [] => Returns []
  | idx :: rest =>
      let similarity_score := score_at sims idx in
      if Qgtb similarity_score min_relevance then
        match nth_error ids idx with
        | None => Raises IndexError
        | Some article_id =>
            match db article_id with
            | Some r =>
                bind_outcome (collect_hits ids db sims rest)
                  (fun hs => Returns (mk_hit article_id r similarity_score :: hs))
            | None => collect_hits ids db sims rest
            end
        end
      else collect_hits ids db sims rest
  end.

Definition advanced_search `{Argsort} (lower : str -> str) (engine : option SearchModel)
    (db : Z -> option row) (query : str) (limit : Z) : outcome (list hit) :=
  match engine with
  | None => Returns []
  | Some m =>
      let processed_query := preprocess_text lower query in
      let similarities := query_similarities m processed_query in
      let top_indices := rev (py_slice_from (- limit) (argsort similarities)) in
      collect_hits (article_ids m) db similarities top_indices
  end.

(** The loop over [top_indices] of [get_related_articles]. *)
Fixpoint collect_related (ids : list Z) (db : Z -> option row) (sims : list Q)
    (target_idx : nat) (top_indices : list nat) : outcome (list hit) :=
  match top_indices with
  | [] => Returns []
  | idx :: rest =>
      if negb (idx =? target_idx) && Qgtb (score_at sims idx) min_similarity then
        match nth_error ids idx with
        | None => Raises IndexError
        | Some related_id =>
            match db related_id with
            | Some r =>
                bind_outcome (collect_related ids db sims target_idx rest)
                  (fun hs => Returns (mk_hit related_id r (score_at sims idx) :: hs))
            | None => collect_related ids db sims target_idx rest
            end
        end
      else collect_related ids db sims target_idx rest
  end.

(** [get_related_articles]: the [ValueError] of [list.index] is caught by the
    handler that closes the function, which logs a warning and returns the
    empty list. *)
Definition get_related_articles `{Argsort} (engine : option SearchModel)
    (db : Z -> option row) (article_id : Z) (limit : Z) : outcome (list hit) :=
  match engine with
  | None => Returns []
  | Some m =>
      match list_index article_id (article_ids m) with
      | None => Returns []
      | Some target_idx =>
          let similarities := row_similarities m target_idx in
          let top_indices :=
            rev (py_slice_from (- limit - 1) (argsort similarities)) in
          bind_outcome
            (collect_related (article_ids m) db similarities target_idx top_indices)
            (fun results => Returns (py_slice_to limit results))
      end
  end.

(* ===================================================================== *)
(** ** [AdvancedSearchEngine.search_suggestions] *)
(* ===================================================================== *)

(** The sort key of the query:
    [ORDER BY CASE WHEN title LIKE %s THEN 1 ELSE 2 END, LENGTH(title)]. *)
Definition key_le (a b : nat * nat) : Prop :=
  fst a < fst b \/ (fst a = fst b /\ snd a <= snd b).

Definition key_leb (a b : nat * nat) : bool :=
  (fst a <? fst b) || ((fst a =? fst b) && (snd a <=? snd b)).

(** What the query asks of the MySQL engine.  [ORDER BY] sorts by the key and
    says nothing on rows whose keys are equal. *)
Class SqlEngine := {
  (** [title LIKE pattern], under the collation of the column *)
  like : str -> str -> bool;
  (** [LENGTH(title)] *)
  sql_length : str -> nat;
  order_by : (str -> nat * nat) -> list str -> list str;
  order_by_perm : forall k l, Permutation (order_by k l) l;
  order_by_sorted : forall k l,
    StronglySorted (fun a b => key_le (k a) (k b)) (order_by k l)
}.

Section Suggest.

Context `{SqlEngine}.

Definition starts_pattern (partial_query : str) : str := partial_query ++ lit "%".
Definition contains_pattern (partial_query : str) : str :=
  lit "%" ++ partial_query ++ lit "%".

(** The [ORDER BY] key of a title. *)
Definition suggestion_key (partial_query : str) (title : str) : nat * nat :=
  (if like (starts_pattern partial_query) title then 1 else 2, sql_length title).

(** The [WHERE] clause. *)
Definition suggestion_match (partial_query : str) (title : str) : bool :=
  like (starts_pattern partial_query) title
  || like (contains_pattern partial_query) title.

(** [search_suggestions] over the [title] column of [wiki_articles].
    [db_up = false] stands for a failing cursor, and a negative [LIMIT] is
    an SQL error: both raise inside the [try] and give the empty list. *)
Definition search_suggestions (titles : list str) (db_up : bool)
    (partial_query : str) (limit : Z) : list str :=
  if length partial_query <? 2 then []
  else if negb db_up || (limit <? 0)%Z then []
  else
    let matched :=
      List.filter (suggestion_match partial_query) (remove_dups titles) in
    firstn (Z.to_nat limit) (order_by (suggestion_key partial_query) matched).

End Suggest.

(** The characters that [LIKE] does not read as themselves: [%], [_] and the
    escape character. *)
Definition like_special (c : cp) : bool :=
  (c =? 37)%N || (c =? 95)%N || (c =? 92)%N.

Definition wildcard_free (partial_query : str) : bool :=
  forallb (fun c => negb (like_special c)) partial_query.

(** Prefix and substring, with [eqc] comparing a character of the title to
    a character of the partial query. *)
Fixpoint starts_by (eqc : cp -> cp -> bool) (q t : str) : bool :=
  match q, t with
  | [], _ => true
  | _ :: _, [] => false
  | a :: q', c :: t' => eqc c a && starts_by eqc q' t'
  end.

Fixpoint contains_by (eqc : cp -> cp -> bool) (q t : str) : bool :=
  starts_by eqc q t
  || match t with
     | [] => false
     | _ :: t' => contains_by eqc q t'
     end.

(** What [LIKE] does with the two patterns of the query when the partial
    query holds no special character: it matches character by character,
    comparing characters as the collation of the column does. *)
Class LikeLiteral `{SqlEngine} := {
  same_char : cp -> cp -> bool;
  like_prefix : forall q t, wildcard_free q = true ->
    like (starts_pattern q) t = starts_by same_char q t;
  like_substring : forall q t, wildcard_free q = true ->
    like (contains_pattern q) t = contains_by same_char q t
}.

(** An executable engine: [LIKE] with [%], [_] and the escape character,
    comparing ASCII letters without case; [LENGTH] as the UTF-8 byte count;
    [ORDER BY] leaving equal keys in scan order. *)
Definition fold_case (c : cp) : cp := if is_upper c then (c + 32)%N else c.

Fixpoint like_ci (pat : str) : str -> bool :=
  match pat with
  | [] => fun s => match s with [] => true | _ :: _ => false end
  | p :: pat' =>
      if (p =? 37)%N then
        fix any (s : str) : bool :=
          like_ci pat' s || match s with [] => false | _ :: s' => any s' end
      else if (p =? 95)%N then
        fun s => match s with [] => false | _ :: s' => like_ci pat' s' end
      else
        match (p =? 92)%N, pat' with
        | true, q :: pat'' =>
            fun s => match s with
                     | [] => false
                     | c :: s' => (fold_case c =? fold_case q)%N && like_ci pat'' s'
                     end
        | _, _ =>
            fun s => match s with
                     | [] => false
                     | c :: s' => (fold_case c =? fold_case p)%N && like_ci pat' s'
                     end
        end
  end.

Definition utf8_length (s : str) : nat :=
  list_sum (map (fun c => if (c <? 128)%N then 1 else if (c <? 2048)%N then 2
                          else if (c <? 65536)%N then 3 else 4) s).

Definition scan_order_by (k : str -> nat * nat) (l : list str) : list str :=
  isort_by (fun a b => key_leb (k a) (k b)) l.

(** [ORDER BY] over the rows as another engine returns them, taken from the
    last to the first: rows of equal keys come out in the reverse of that
    engine's order. *)
Definition flip_order_by (order_by0 : (str -> nat * nat) -> list str -> list str)
    (k : str -> nat * nat) (l : list str) : list str :=
  scan_order_by k (rev (order_by0 k l)).

(* ===================================================================== *)
(** ** [MassCrawler.is_quality_article] *)
(* ===================================================================== *)

Definition skip_patterns : list str :=
  map lit ["disambiguation"; "may refer to"; "list of"; "index of";
           "category:"; "template:"; "file:"; "portal:"]%string.

Definition is_quality_article (lower : str -> str) (title content summary : str) : bool :=
  let title_lower := lower title in
  let summary_lower := lower summary in
  if existsb (fun pattern => contains pattern title_lower
                             || contains pattern summary_lower) skip_patterns
  then false
  else if length content <? 1000 then false
  else if length summary <? 100 then false
  else true.

(* ===================================================================== *)
(** ** [MassCrawler.fetch_article] *)
(* ===================================================================== *)

(** One entry of [parse.links]: [l.get('ns')] and [l['*']] ([None] when the
    key is missing). *)
Record link := {
  link_ns : option Z;
  link_star : option str
}.

(** The fields read from the summary endpoint. *)
Record summary_data := {
  sd_title : str;
  sd_extract : str;
  sd_page : str
}.

(** The fields read from the parse endpoint. *)
Record content_data := {
  cd_text : str;
  cd_links : list link
}.

(** [requests.get(...)] followed by [.json()]: a status code with the decoded
    body, or an exception (timeout, connection error, malformed payload). *)
Inductive response (A : Type) :=
| Resp (status_code : Z) (body : A)
| RequestFails.
Arguments Resp {A} status_code body.
Arguments RequestFails {A}.

(** The dict [fetch_article] returns. *)
Record article := {
  title : str;
  summary : str;
  content : str;
  clean_content : str;
  url : str;
  word_count : nat;
  links : list str
}.

(** [[l['*'] for l in links if l.get('ns') == 0]]; a missing ['*'] key is a
    [KeyError]. *)
Fixpoint linked_titles_of (ls : list link) : option (list str) :=
  match ls with
  | [] => Some []
  | l :: ls' =>
      match link_ns l with
      | Some 0%Z =>
          match link_star l, linked_titles_of ls' with
          | Some t, Some ts => Some (t :: ts)
          | _, _ => None
          end
      | _ => linked_titles_of ls'
      end
  end.

Section Fetch.

Variable lower : str -> str.
(** [clean_html_content], the markup stripper. *)
Variable clean_html_content : str -> str.
(** The two endpoints of the source API. *)
Variable get_summary : str -> response summary_data.
Variable get_content : str -> response content_data.

Definition fetch_article (visited : gset str) (t : str) : option article :=
  if decide (t ∈ visited) then None
  else
    match get_summary t with
    | RequestFails => None
    | Resp summary_status sd =>
        if negb (summary_status =? 200)%Z then None
        else
          match get_content t with
          | RequestFails => None
          | Resp content_status cd =>
              if negb (content_status =? 200)%Z then None
              else if negb (is_quality_article lower (sd_title sd) (cd_text cd)
                              (sd_extract sd)) then None
              else
                let clean := clean_html_content (cd_text cd) in
                match linked_titles_of (cd_links cd) with
                | None => None
                | Some linked_titles =>
                    Some {| title := sd_title sd;
                            summary := sd_extract sd;
                            content := cd_text cd;
                            clean_content := clean;
                            url := sd_page sd;
                            word_count := length (split clean);
                            links := linked_titles |}
                end
          end
    end.

End Fetch.

(* ===================================================================== *)
(** ** The store: [MassCrawler.batch_insert_articles] *)
(* ===================================================================== *)

(** A row of [wiki_articles] as the crawler writes it. *)
Record stored := {
  st_title : str;
  st_summary : str;
  st_content : str;
  st_clean_content : str;
  st_url : str;
  st_word_count : nat
}.

Inductive level := INFO | WARNING | ERROR.

(** The connection: the table, what the next [executemany]/[commit] calls
    will do ([true]: raise; an exhausted list: succeed), how many such calls
    were made, and the log.  [rollback] leaves the table as it was before the
    failed statement. *)
Record database := {
  rows : list stored;
  faults : list bool;
  executemany_calls : nat;
  log : list (level * string)
}.

(** The tuple built for one article: title cut at 255 and url at 500. *)
Definition sanitize (a : article) : stored :=
  {| st_title := firstn 255 (title a);
     st_summary := summary a;
     st_content := content a;
     st_clean_content := clean_content a;
     st_url := firstn 500 (url a);
     st_word_count := word_count a |}.

(** How the [UNIQUE] key on [title] compares two titles: the collation of
    the column, which the table definition leaves to the server's default (on
    MySQL a case-insensitive one).  Whatever it is, it is an equivalence. *)
Class Collation := {
  same_key : str -> str -> bool;
  same_key_refl : forall a, same_key a a = true;
  same_key_sym : forall a b, same_key a b = true -> same_key b a = true;
  same_key_trans : forall a b c,
    same_key a b = true -> same_key b c = true -> same_key a c = true
}.

(** The table holds a row whose title equals [t] under the key. *)
Definition has_title `{Collation} (t : str) (rs : list stored) : bool :=
  existsb (fun r => same_key (st_title r) t) rs.

(** [INSERT IGNORE] of one tuple under the [UNIQUE] key on [title]: a tuple
    whose title equals, under the key, the title of a row already there is
    dropped without error. *)
Definition insert_ignore `{Collation} (rs : list stored) (v : stored) : list stored :=
  if has_title (st_title v) rs then rs else rs ++ [v].

Definition batch_insert_articles `{Collation} (articles : list article) (d : database)
  : database :=
  match articles with
  | [] => d
  | _ :: _ =>
      let values := map sanitize articles in
      match faults d with
      | true :: later =>
          {| rows := rows d;
             faults := later;
             executemany_calls := S (executemany_calls d);
             log := log d ++ [(ERROR, "Batch insert error"%string)] |}
      | _ =>
          {| rows := fold_left insert_ignore values (rows d);
             faults := tl (faults d);
             executemany_calls := S (executemany_calls d);
             log := log d ++ [(INFO, "Batch inserted"%string)] |}
      end
  end.

(** An executable key comparison: ASCII letters compare without case, every
    other code point exactly. *)
Definition ascii_ci_key (a b : str) : bool :=
  bool_decide (map fold_case a = map fold_case b).

(* ===================================================================== *)
(** ** The frontier and the workers: [MassCrawler.worker_thread] *)
(* ===================================================================== *)

Record crawler := {
  visited : gset str;
  queue : list str;
  article_batch : list article;
  db : database
}.

(** The configuration constants. *)
Definition MAX_ARTICLES : Z := 10000.
Definition BATCH_SIZE : Z := 100.
(** The literals of [worker_thread]. *)
Definition QUEUE_LIMIT : Z := 50000.
Definition LINKS_PER_ARTICLE : nat := 10.

(** [if link not in self.visited and len(self.queue) < 50000:
        self.queue.append(link)]. *)
Definition offer_link (seen : gset str) (q : list str) (l : str) : list str :=
  if bool_decide (l ∉ seen) && (Z.of_nat (length q) <? QUEUE_LIMIT)%Z
  then q ++ [l] else q.

(** [for link in article_data['links'][:10]: ...]. *)
Definition offer_links (seen : gset str) (q : list str) (ls : list str) : list str :=
  fold_left (offer_link seen) (firstn LINKS_PER_ARTICLE ls) q.

(** The second locked block of the loop: mark visited, keep the article,
    offer its links, flush a full batch. *)
Definition record_result `{Collation} (current : str) (article_data : option article)
    (c : crawler) : crawler :=
  let seen := {[current]} ∪ visited c in
  match article_data with
  | None =>
      {| visited := seen; queue := queue c;
         article_batch := article_batch c; db := db c |}
  | Some a =>
      let batch := article_batch c ++ [a] in
      let q := offer_links seen (queue c) (links a) in
      if (BATCH_SIZE <=? Z.of_nat (length batch))%Z then
        {| visited := seen; queue := q;
           article_batch := []; db := batch_insert_articles batch (db c) |}
      else
        {| visited := seen; queue := q; article_batch := batch; db := db c |}
  end.

(** One pass of the loop run by a single worker; [None] when the loop ends. *)
Definition worker_iteration `{Collation} (fetch : gset str -> str -> option article)
    (c : crawler) : option crawler :=
  if (MAX_ARTICLES <=? Z.of_nat (size (visited c)))%Z then None
  else
    match queue c with
    | [] => None
    | current :: rest =>
        let c1 := {| visited := visited c; queue := rest;
                     article_batch := article_batch c; db := db c |} in
        if decide (current ∈ visited c) then Some c1
        else Some (record_result current (fetch (visited c) current) c1)
    end.

(** [worker_thread] run alone: the loop, for at most [fuel] passes. *)
Fixpoint worker_thread `{Collation} (fuel : nat)
    (fetch : gset str -> str -> option article) (c : crawler) : crawler :=
  match fuel with
  | 0 => c
  | S fuel' =>
      match worker_iteration fetch c with
      | None => c
      | Some c' => worker_thread fuel' fetch c'
      end
  end.

(* ===================================================================== *)
(** ** [MassCrawler.populate_initial_queue] *)
(* ===================================================================== *)

Definition SEED_CATEGORIES : list str :=
  map lit ["Category:Programming_languages"; "Category:Computer_science";
           "Category:Technology"; "Category:Science"; "Category:Mathematics";
           "Category:Physics"; "Category:Chemistry"; "Category:Biology";
           "Category:History"; "Category:Geography"]%string.

Section Populate.

(** [fetch_category_members]: the members of a category with their
    namespaces. *)
Variable fetch_category_members : str -> list (str * Z).

Definition seed_sub_member (seen : gset str) (q : list str) (m : str * Z) : list str :=
  if (snd m =? 0)%Z && bool_decide (fst m ∉ seen) then q ++ [fst m] else q.

Definition seed_member (seen : gset str) (q : list str) (m : str * Z) : list str :=
  if (snd m =? 0)%Z && bool_decide (fst m ∉ seen) then q ++ [fst m]
  else if (snd m =? 14)%Z then
    fold_left (seed_sub_member seen) (firstn 50 (fetch_category_members (fst m))) q
  else q.

Definition populate_initial_queue (c : crawler) : crawler :=
  {| visited := visited c;
     queue := fold_left
                (fun q category =>
                   fold_left (seed_member (visited c))
                             (fetch_category_members category) q)
                SEED_CATEGORIES (queue c);
     article_batch := article_batch c;
     db := db c |}.

End Populate.

(* ===================================================================== *)
(** ** The end of [MassCrawler.run] *)
(* ===================================================================== *)

(** How the monitoring block is left once the executor has joined its
    workers: every worker returned, the target count was seen, or a
    [KeyboardInterrupt] arrived. *)
Inductive monitor_end := WorkersDone | TargetReached | Interrupted.

(** What follows the [try] block of [run]: the handler of
    [KeyboardInterrupt] re-raises, every other way out reaches the final
    batch insert. *)
Definition run_finish `{Collation} (e : monitor_end) (c : crawler)
  : crawler * outcome unit :=
  match e with
  | Interrupted => (c, Raises KeyboardInterrupt)
  | WorkersDone | TargetReached =>
      match article_batch c with
      | [] => (c, Returns tt)
      | _ :: _ =>
          ({| visited := visited c; queue := queue c;
              article_batch := article_batch c;
              db := batch_insert_articles (article_batch c) (db c) |},
           Returns tt)
      end
  end.

(* ===================================================================== *)
(** ** The worker pool as an interleaving of atomic steps *)
(* ===================================================================== *)

(** Where a worker stands in its loop. *)
Inductive pc :=
| AtLoopTop
| Popped (current : str)
| Calling (current : str)
| Fetched (current : str) (article_data : option article)
| Finished.

Record pool := {
  shared : crawler;
  workers : list pc;
  (** the titles for which [fetch_article] issued its requests, in order *)
  requested : list str
}.

Definition set_worker (tid : nat) (p : pc) (ws : list pc) : list pc := <[tid := p]> ws.

Section Interleaving.

Context `{Collation}.

(** The body of [fetch_article] after its own visited test. *)
Variable fetch : gset str -> str -> option article.

(** One atomic step of worker [tid]; [None] when it has none to take. *)
Definition step (tid : nat) (s : pool) : option pool :=
  let c := shared s in
  match workers s !! tid with
  | None | Some Finished => None
  | Some AtLoopTop =>
      if (MAX_ARTICLES <=? Z.of_nat (size (visited c)))%Z then
        Some {| shared := c; workers := set_worker tid Finished (workers s);
                requested := requested s |}
      else
        match queue c with
        | [] => Some {| shared := c; workers := set_worker tid Finished (workers s);
                        requested := requested s |}
        | current :: rest =>
            Some {| shared := {| visited := visited c; queue := rest;
                                 article_batch := article_batch c; db := db c |};
                    workers := set_worker tid (Popped current) (workers s);
                    requested := requested s |}
        end
  | Some (Popped current) =>
      if decide (current ∈ visited c) then
        Some {| shared := c; workers := set_worker tid AtLoopTop (workers s);
                requested := requested s |}
      else
        Some {| shared := c; workers := set_worker tid (Calling current) (workers s);
                requested := requested s |}
  | Some (Calling current) =>
      if decide (current ∈ visited c) then
        Some {| shared := c;
                workers := set_worker tid (Fetched current None) (workers s);
                requested := requested s |}
      else
        Some {| shared := c;
                workers := set_worker tid
                             (Fetched current (fetch (visited c) current)) (workers s);
                requested := requested s ++ [current] |}
  | Some (Fetched current article_data) =>
      Some {| shared := record_result current article_data c;
              workers := set_worker tid AtLoopTop (workers s);
              requested := requested s |}
  end.

(** Running a schedule: the worker named at each position takes a step. *)
Fixpoint run_schedule (sched : list nat) (s : pool) : option pool :=
  match sched with
  | [] => Some s
  | tid :: sched' =>
      match step tid s with
      | Some s' => run_schedule sched' s'
      | None => None
      end
  end.

End Interleaving.

(** How often [t] occurs in a list of titles. *)
Definition occurrences (t : str) (l : list str) : nat :=
  length (List.filter (fun x => bool_decide (x = t)) l).

(* ===================================================================== *)
(** ** Vocabulary of the properties *)
(* ===================================================================== *)

(** A token: non-empty and free of whitespace. *)
Definition token (t : str) : Prop :=
  t <> [] /\ Forall (fun c => is_space c = false) t.

(** The code points [preprocess_text] can leave in its result. *)
Definition plain (c : cp) : Prop :=
  is_lower c || is_digit c || (c =? SP)%N = true.

(** The title or the summary, lower-cased, contains one of the markers. *)
Definition has_marker (lower : str -> str) (title summary : str) : bool :=
  existsb (fun pattern => contains pattern (lower title)
                          || contains pattern (lower summary)) skip_patterns.

(** What a kept position and the hit built from it have in common. *)
Definition hit_of (ids : list Z) (sims : list Q) (h : hit) (i : nat) : Prop :=
  nth_error ids i = Some (hit_id h) /\ hit_score h = score_at sims i.

(** Under the stable argsort, positions ascend by score and, among equal
    scores, by position. *)
Definition score_then_position (v : list Q) (i j : nat) : Prop :=
  (score_at v i < score_at v j)%Q \/ ((score_at v i == score_at v j)%Q /\ i < j).

(** The order the query asks for: a prefix match never follows a title that
    is no prefix match, and of two titles of the same class the one that
    comes first is no longer than the other. *)
Definition suggestion_order `{SqlEngine} (partial_query : str) (a b : str) : Prop :=
  (like (starts_pattern partial_query) b = true ->
   like (starts_pattern partial_query) a = true) /\
  (like (starts_pattern partial_query) a = like (starts_pattern partial_query) b ->
   sql_length a <= sql_length b).

(** The same order with the classes read off the title: having the partial
    query as a prefix, or not. *)
Definition prefix_then_length `{SqlEngine} `{!LikeLiteral} (partial_query : str)
    (a b : str) : Prop :=
  (starts_by same_char partial_query b = true ->
   starts_by same_char partial_query a = true) /\
  (starts_by same_char partial_query a = starts_by same_char partial_query b ->
   sql_length a <= sql_length b).

(** The invariant of a pool of one worker: no title was requested twice,
    and every requested title is visited or is the one whose result the
    worker holds. *)
Definition lone_worker_inv (s : pool) : Prop :=
  exists p, workers s = [p] /\
    NoDup (requested s) /\
    forall t, In t (requested s) ->
      t ∈ visited (shared s) \/ exists r, p = Fetched t r.

(* ===================================================================== *)
(** ** A small index used to run the engine *)
(* ===================================================================== *)

(** Three indexed articles with ids 1, 2, 3 in row order; every query scores
    the first two equally. *)
Definition example_model : SearchModel :=
  {| article_ids := [1; 2; 3]%Z;
     query_similarities := fun _ => [1 # 2; 1 # 2; 1 # 4]%Q;
     row_similarities := fun _ => [1; 1 # 2; 1 # 5]%Q |}.

Definition example_db (id : Z) : option row :=
  Some {| row_title := lit "t"; row_summary := lit "s"; row_url := lit "u";
          row_word_count := 0 |}.

(** [a < b] on Python strings: lexicographic on code points. *)
Fixpoint str_ltb (a b : str) : bool :=
  match a, b with
  | _, [] => false
  | [], _ :: _ => true
  | x :: a', y :: b' => (x <? y)%N || ((x =? y)%N && str_ltb a' b')
  end.

(* ===================================================================== *)
(** ** A small crawl used to run the scheduler *)
(* ===================================================================== *)

Definition example_title : str := lit "Alan Turing".

(** An article whose page links to eleven main-namespace titles, one
    talk page and one category. *)
Definition example_links : list link :=
  map (fun n => {| link_ns := Some 0%Z; link_star := Some [n] |})
      [65; 66; 67; 68; 69; 70; 71; 72; 73; 74; 75]%N
  ++ [ {| link_ns := Some 1%Z; link_star := Some (lit "Talk:Alan Turing") |};
       {| link_ns := Some 14%Z; link_star := Some (lit "Category:Logicians") |} ].

Definition example_get_summary (t : str) : response summary_data :=
  Resp 200 {| sd_title := t; sd_extract := repeat 97%N 100; sd_page := lit "u" |}.

Definition example_get_content (t : str) : response content_data :=
  Resp 200 {| cd_text := repeat 98%N 1000; cd_links := example_links |}.

(** The fetcher over these endpoints, with a markup stripper that leaves the
    text as it is. *)
Definition example_fetch : gset str -> str -> option article :=
  fetch_article ascii_lower (fun html => html) example_get_summary example_get_content.

(** What the fetcher returns for any title over these endpoints. *)
Definition example_fetched (t : str) : article :=
  {| title := t; summary := repeat 97%N 100;
     content := repeat 98%N 1000; clean_content := repeat 98%N 1000;
     url := lit "u"; word_count := 1;
     links := map (fun n => [n]) [65; 66; 67; 68; 69; 70; 71; 72; 73; 74; 75]%N |}.

Definition example_article : article :=
  {| title := example_title; summary := repeat 97%N 100;
     content := repeat 98%N 1000; clean_content := repeat 98%N 1000;
     url := lit "u"; word_count := 1; links := [] |}.

Definition empty_database (fs : list bool) : database :=
  {| rows := []; faults := fs; executemany_calls := 0; log := [] |}.

(** Every seed category lists the same article. *)
Definition example_members (category : str) : list (str * Z) := [(example_title, 0%Z)].

Definition fresh_crawler : crawler :=
  {| visited := ∅; queue := []; article_batch := []; db := empty_database [] |}.

(** Two workers at the top of their loop, over the queue the seeds give. *)
Definition example_pool : pool :=
  {| shared := populate_initial_queue example_members fresh_crawler;
     workers := [AtLoopTop; AtLoopTop];
     requested := [] |}.

(** A run that is interrupted with one fetched article in the buffer. *)
Definition interrupted_crawler : crawler :=
  {| visited := {[example_title]}; queue := [];
     article_batch := [example_article]; db := empty_database [] |}.

(* ===================================================================== *)
(** ** [MassCrawler.clean_html_content] *)
(* ===================================================================== *)

(** [re.sub(r'\s+', ' ', text)]: every maximal run of whitespace becomes one
    space. *)
Fixpoint collapse_spaces (s : str) : str :=
  match s with
  | [] => []
  | c :: s' =>
      if is_space c then
        match s' with
        | [] => [SP]
        | d :: _ => if is_space d then collapse_spaces s' else SP :: collapse_spaces s'
        end
      else c :: collapse_spaces s'
  end.

(** [text.lstrip()] and [text.strip()]. *)
Fixpoint lstrip (s : str) : str :=
  match s with
  | [] => []
  | c :: s' => if is_space c then lstrip s' else s
  end.

Definition strip (s : str) : str := rev (lstrip (rev (lstrip s))).

(** [re.sub(r'\[.*?\]', '', text)].  The scan returns the text with the
    bracketed spans removed, together with what follows the first closing
    bracket that no line feed precedes, spans removed (the shortest match
    of [.*?\]] from the current position). *)
Fixpoint refs_scan (s : str) : str * option str :=
  match s with
  | [] => ([], None)
  | c :: s' =>
      let (removed, after_close) := refs_scan s' in
      (if (c =? 91)%N then
         match after_close with
         | Some after => after
         | None => c :: removed
         end
       else c :: removed,
       if (c =? 93)%N then Some removed
       else if (c =? 10)%N then None
       else after_close)
  end.

Definition remove_refs (s : str) : str := fst (refs_scan s).

(** The class [[\x00-\x08\x0B-\x0C\x0E-\x1F\x7F]]. *)
Definition is_control (c : cp) : bool :=
  ((c <=? 8) || (11 <=? c) && (c <=? 12) || (14 <=? c) && (c <=? 31)
   || (c =? 127))%N.

(** [clean_html_content], over the text BeautifulSoup extracts once the
    unwanted elements are removed; [None] stands for an exception of the
    parser, which the handler turns into the empty string. *)
Definition clean_html_content (get_text : str -> option str) (html_content : str) : str :=
  match html_content with
  | [] => []
  | _ :: _ =>
      match get_text html_content with
      | None => []
      | Some text =>
          let text := strip (collapse_spaces text) in
          let text := remove_refs text in
          let text := List.filter (fun c => negb (c =? 0)%N) text in
          List.filter (fun c => negb (is_control c)) text
      end
  end.

(* ===================================================================== *)
(** ** [MassCrawler.fetch_category_members] *)
(* ===================================================================== *)

(** One page of [list=categorymembers]: the members with their namespaces
    and the [cmcontinue] token, if any. *)
Record members_page := {
  page_members : list (str * Z);
  page_continue : option str
}.

Section CategoryMembers.

(** The request for a category, without or with a continuation token. *)
Variable get_members_page : str -> option str -> response members_page.

(** The [while len(members) < 500] loop, for at most [fuel] requests;
    [None] when the fuel runs out.  An exception inside the loop leaves
    through the handler, which returns the empty list; a status other than
    200 leaves through [break] with the members gathered so far.  An empty
    token is falsy and ends the loop like a missing one. *)
Fixpoint category_pages (fuel : nat) (category : str) (members : list (str * Z))
    (continue_param : option str) : option (list (str * Z)) :=
  if 500 <=? length members then Some members
  else
    match fuel with
    | 0 => None
    | S fuel' =>
        match get_members_page category continue_param with
        | RequestFails => Some []
        | Resp status_code page =>
            if negb (status_code =? 200)%Z then Some members
            else
              let members' := members ++ page_members page in
              match page_continue page with
              | Some (c :: token) =>
                  category_pages fuel' category members' (Some (c :: token))
              | _ => Some members'
              end
        end
    end.

Definition fetch_category_members (fuel : nat) (category : str)
  : option (list (str * Z)) :=
  category_pages fuel category [] None.

End CategoryMembers.

(* ===================================================================== *)
(** ** [MassCrawler.load_existing_articles] *)
(* ===================================================================== *)

(** [self.visited.update(row[0] for row in existing)] over
    [SELECT title FROM wiki_articles]. *)
Definition load_existing_articles (c : crawler) : crawler :=
  {| visited := visited c ∪ list_to_set (map st_title (rows (db c)));
     queue := queue c;
     article_batch := article_batch c;
     db := db c |}.

(* ===================================================================== *)
(** ** [AdvancedSearchEngine.build_search_index]: the documents *)
(* ===================================================================== *)

(** [f"{title} {title} {title} {summary} {content}"], cleaned. *)
Definition document_text (lower : str -> str) (title summary content : str) : str :=
  preprocess_text lower
    (title ++ SP :: title ++ SP :: title ++ SP :: summary ++ SP :: content).

(* ===================================================================== *)
(** ** Vocabulary of the further properties *)
(* ===================================================================== *)

(** The words of a text as the index sees them. *)
Definition words (lower : str -> str) (text : str) : list str :=
  split (strip_special (lower text)).

(** [str.lower] commutes with joining two texts by a space. *)
Class LowerSpaced (lower : str -> str) : Prop :=
  lower_spaced : forall a b, lower (a ++ SP :: b) = lower a ++ SP :: lower b.

(** No opening bracket stands before a closing one. *)
Fixpoint no_ref (s : str) : Prop :=
  match s with
  | [] => True
  | c :: s' => (c = 91%N -> ~ In 93%N s') /\ no_ref s'
  end.

(** A category of two pages, and the same category when the request for the
    second page raises. *)
Definition example_first_page : members_page :=
  {| page_members := [(lit "A", 0%Z); (lit "Category:B", 14%Z)];
     page_continue := Some (lit "page|2") |}.

Definition example_pages (category : str) (tok : option str) : response members_page :=
  match tok with
  | None => Resp 200 example_first_page
  | Some _ => Resp 200 {| page_members := [(lit "C", 0%Z)]; page_continue := None |}
  end.

Definition example_pages_failing (category : str) (tok : option str)
  : response members_page :=
  match tok with
  | None => Resp 200 example_first_page
  | Some _ => RequestFails
  end.

(** The crawler holds a title, up to the comparison of the key: an article
    of the batch buffer carries it (cut as the table will cut it), or a row
    of the table does. *)
Definition holds `{Collation} (c : crawler) (t : str) : Prop :=
  (exists a, In a (article_batch c) /\ same_key (firstn 255 (title a)) t = true)
  \/ has_title t (rows (db c)) = true.

(** A position qualifies for a search result: its similarity is above the
    threshold and the store has a row for its article. *)
Definition qualifies (ids : list Z) (db : Z -> option row) (sims : list Q)
    (i : nat) : bool :=
  Qgtb (score_at sims i) min_relevance &&
  match nth_error ids i with
  | Some article_id => match db article_id with Some _ => true | None => false end
  | None => false
  end.

(* ===================================================================== *)
(** * Properties *)
(* ===================================================================== *)

(** The executable key comparison is a collation. *)
#[export] Instance ascii_ci : Collation.
Proof.
  refine {| same_key := ascii_ci_key |}; unfold ascii_ci_key.
  - intros a. now apply bool_decide_eq_true.
  - intros a b Hab. apply bool_decide_eq_true in Hab. now apply bool_decide_eq_true.
  - intros a b c Hab Hbc. apply bool_decide_eq_true in Hab, Hbc.
    apply bool_decide_eq_true. congruence.
Defined.

(** ** Text cleaning *)

Example preprocess_text_ex :
  preprocess_text ascii_lower (lit "  Hello,  World!! C++ ") = lit "hello world c".
Proof. reflexivity. Qed.

Lemma split_tokens (s : str) :
  Forall (fun t => token t /\ Forall (fun c => In c s) t) (split s).
Proof.
  induction s as [|c s IH]; simpl; [constructor|].
  assert (IH' : Forall (fun t => token t /\ Forall (fun x => In x (c :: s)) t) (split s)).
  { eapply List.Forall_impl; [|exact IH]. intros t [Ht Hin]. split; [exact Ht|].
    eapply List.Forall_impl; [|exact Hin]. intros x Hx. now right. }
  destruct (is_space c) eqn:Hc; [exact IH'|].
  assert (Hone : token [c] /\ Forall (fun x => In x (c :: s)) [c]).
  { repeat split; [discriminate| | ]; constructor; auto. now left. }
  destruct s as [|d s']; [constructor; [exact Hone|constructor]|].
  destruct (is_space d) eqn:Hd; [constructor; [exact Hone|exact IH']|].
  destruct (split (d :: s')) as [|t ts] eqn:Hsp; [constructor; [exact Hone|constructor]|].
  inversion IH' as [|? ? [[Hne Hns] Hin] Hrest]; subst.
  constructor; [|exact Hrest].
  repeat split; [discriminate| |]; constructor; auto; try (now left).
Qed.

Lemma split_token_app (t rest : str) :
  token t ->
  match rest with [] => True | d :: _ => is_space d = true end ->
  split (t ++ rest) = t :: split rest.
Proof.
  intros [Hne Hns] Hrest. induction t as [|c t IH]; [congruence|].
  inversion Hns as [|? ? Hc Hns']; subst.
  destruct t as [|c' t'].
  - simpl. rewrite Hc. destruct rest as [|d r]; [reflexivity|].
    now rewrite Hrest.
  - assert (Hc' : is_space c' = false) by now inversion Hns'.
    specialize (IH ltac:(discriminate) Hns').
    change ((c :: c' :: t') ++ rest) with (c :: (c' :: t') ++ rest).
    cbn [split]. rewrite Hc.
    change ((c' :: t') ++ rest) with (c' :: (t' ++ rest)) in *.
    cbv iota. rewrite Hc'. now rewrite IH.
Qed.

Lemma split_join (toks : list str) :
  Forall token toks -> split (join [SP] toks) = toks.
Proof.
  induction 1 as [|t ts Ht Hts IH]; [reflexivity|].
  destruct ts as [|t2 ts'].
  - simpl. rewrite <- (app_nil_r t) at 1. now rewrite split_token_app.
  - change (join [SP] (t :: t2 :: ts')) with (t ++ SP :: join [SP] (t2 :: ts')).
    rewrite split_token_app; [|exact Ht|reflexivity].
    f_equal. change (split (SP :: join [SP] (t2 :: ts'))) with (split (join [SP] (t2 :: ts'))).
    exact IH.
Qed.

Lemma join_chars (P : cp -> Prop) (toks : list str) :
  P SP -> Forall (Forall P) toks -> Forall P (join [SP] toks).
Proof.
  intros HSP. induction 1 as [|t ts Ht Hts IH]; [constructor|].
  destruct ts as [|t2 ts']; [exact Ht|].
  change (join [SP] (t :: t2 :: ts')) with (t ++ SP :: join [SP] (t2 :: ts')).
  apply Forall_app. split; [exact Ht|]. constructor; [exact HSP|exact IH].
Qed.

Lemma strip_special_plain (s : str) : Forall plain s -> strip_special s = s.
Proof.
  induction 1 as [|c s Hc Hs IH]; [reflexivity|].
  simpl. rewrite IH. f_equal.
  unfold plain in Hc. unfold is_alnum.
  destruct (is_lower c); [reflexivity|]. destruct (is_digit c).
  - now rewrite orb_true_r.
  - simpl in Hc. apply N.eqb_eq in Hc. now subst.
Qed.

Lemma strip_special_In (s : str) (c : cp) :
  In c (strip_special s) -> is_space c = false -> In c s /\ is_alnum c = true.
Proof.
  unfold strip_special. rewrite in_map_iff. intros [x [Hx Hin]] Hc.
  destruct (is_alnum x) eqn:Ha; simpl in Hx.
  - subst. auto.
  - destruct (is_space x) eqn:Hs; subst; [congruence|]. discriminate.
Qed.

(** The result of the cleaning consists of lower-case letters, digits and
    single spaces. *)
Lemma squeeze_strip_plain (lower : str -> str) `{!Lower lower} (s : str) :
  exists toks,
    squeeze (strip_special (lower s)) = join [SP] toks /\
    Forall token toks /\ Forall (Forall plain) toks.
Proof.
  exists (split (strip_special (lower s))). split; [reflexivity|].
  pose proof (split_tokens (strip_special (lower s))) as H.
  split; (eapply List.Forall_impl; [|exact H]); intros t [Ht Hin]; [exact Ht|].
  destruct Ht as [_ Hns]. rewrite Forall_forall in *. intros c Hc.
  destruct (strip_special_In _ _ (Hin c Hc) (Hns c Hc)) as [Hl Ha].
  apply lower_no_upper in Hl. unfold plain, is_alnum in *.
  rewrite Hl in Ha. rewrite orb_false_r in Ha. now rewrite Ha.
Qed.

(** Case analysis on the range tests of a code point. *)
Ltac cp_ranges :=
  unfold is_upper, is_lower, is_digit, SP in *;
  repeat match goal with
         | |- context [N.leb ?a ?b] => destruct (N.leb_spec a b)
         | H : context [N.leb ?a ?b] |- _ => destruct (N.leb_spec a b)
         | |- context [N.eqb ?a ?b] => destruct (N.eqb_spec a b)
         | H : context [N.eqb ?a ?b] |- _ => destruct (N.eqb_spec a b)
         end;
  simpl in *; try congruence; try lia.

#[export] Instance ascii_lower_Lower : Lower ascii_lower.
Proof.
  split.
  - intros s c. unfold ascii_lower. rewrite in_map_iff. intros [x [Hx _]].
    destruct (is_upper x) eqn:Hu; subst; [|exact Hu]. cp_ranges.
  - induction 1 as [|c s Hc Hs IH]; [reflexivity|].
    unfold ascii_lower in *. simpl. rewrite IH. f_equal.
    destruct (is_upper c) eqn:Hu; [|reflexivity]. cp_ranges.
Qed.

(** C10. [preprocess_text] is idempotent: cleaning a cleaned text changes
    nothing, whatever the text, for every [str.lower] that yields no ASCII
    capital and leaves lower-case letters, digits and spaces alone. *)
Theorem preprocess_text_idempotent (lower : str -> str) `{!Lower lower} (s : str) :
  preprocess_text lower (preprocess_text lower s) = preprocess_text lower s.
Proof.
  destruct s as [|c s]; [reflexivity|].
  unfold preprocess_text at 2 3.
  destruct (squeeze_strip_plain lower (c :: s)) as [toks [Heq [Htok Hplain]]].
  rewrite Heq. set (t := join [SP] toks).
  assert (Ht : Forall plain t) by (apply join_chars; [reflexivity|exact Hplain]).
  unfold preprocess_text. destruct t as [|d t'] eqn:Et; [reflexivity|].
  rewrite <- Et in *. rewrite (lower_plain t Ht), (strip_special_plain t Ht).
  unfold squeeze, t. now rewrite split_join.
Qed.

Lemma preprocess_text_idempotent_witness :
  preprocess_text ascii_lower
    (preprocess_text ascii_lower (lit "  Hello,  World!! C++ "))
  = preprocess_text ascii_lower (lit "  Hello,  World!! C++ ").
Proof. apply (preprocess_text_idempotent ascii_lower). Defined.

(** ** Quality filter *)

Lemma startswith_spec (pat s : str) :
  startswith pat s = true <-> exists rest, s = pat ++ rest.
Proof.
  revert s. induction pat as [|a pat IH]; intros s; simpl.
  - split; [intros _; now exists s|reflexivity].
  - destruct s as [|b s]; [split; [discriminate|intros [r Hr]; discriminate]|].
    rewrite andb_true_iff, N.eqb_eq, IH. split.
    + intros [-> [r ->]]. now exists r.
    + intros [r Hr]. injection Hr as -> ->. split; [reflexivity|now exists r].
Qed.

(** [contains] is the substring test. *)
Lemma contains_spec (pat s : str) :
  contains pat s = true <-> exists before rest, s = before ++ pat ++ rest.
Proof.
  induction s as [|b s IH].
  - simpl. rewrite orb_false_r, startswith_spec. split.
    + intros [r Hr]. now exists [], r.
    + intros [a [r Hr]]. destruct a; [now exists r|discriminate].
  - cbn [contains]. rewrite orb_true_iff, startswith_spec, IH. split.
    + intros [[r Hr]|[a [r Hr]]]; [now exists [], r|].
      exists (b :: a), r. now rewrite Hr.
    + intros [a [r Hr]]. destruct a as [|x a]; [left; now exists r|].
      right. injection Hr as -> ->. now exists a, r.
Qed.

Lemma has_marker_spec (lower : str -> str) (title summary : str) :
  has_marker lower title summary = true <->
  exists pattern, In pattern skip_patterns /\
    (contains pattern (lower title) = true \/
     contains pattern (lower summary) = true).
Proof.
  unfold has_marker. rewrite existsb_exists.
  split; intros [p [Hp H]]; exists p; (split; [exact Hp|]);
    [now apply orb_true_iff in H|now apply orb_true_iff].
Qed.

(** C2, as the code has it.  The filter rejects exactly when the lower-cased
    title or summary contains a marker, or the content has fewer than 1000
    code points, or the summary fewer than 100.  So content of length 999 is
    rejected, and content of length 1001 with a summary of at least 100 and
    no marker is accepted. *)
Theorem is_quality_article_spec (lower : str -> str) (title content summary : str) :
  (is_quality_article lower title content summary = false <->
   has_marker lower title summary = true
   \/ length content < 1000 \/ length summary < 100)
  /\ (length content = 999 ->
      is_quality_article lower title content summary = false)
  /\ (length content = 1001 -> 100 <= length summary ->
      has_marker lower title summary = false ->
      is_quality_article lower title content summary = true).
Proof.
  unfold is_quality_article. fold (has_marker lower title summary).
  destruct (has_marker lower title summary);
    destruct (Nat.ltb_spec (length content) 1000);
    destruct (Nat.ltb_spec (length summary) 100);
    repeat split; intros; try reflexivity; try discriminate; try lia;
    auto; try (intuition (discriminate || lia)).
Qed.

Lemma is_quality_article_spec_witness :
  is_quality_article ascii_lower (lit "Python") (repeat 97%N 1001) (repeat 97%N 100)
  = true.
Proof.
  apply (is_quality_article_spec ascii_lower (lit "Python")
           (repeat 97%N 1001) (repeat 97%N 100)).
  - vm_compute. reflexivity.
  - vm_compute. lia.
  - vm_compute. reflexivity.
Defined.

(** C2, as stated, fails: with a content minimum of 100 the claim accepts
    content of length 101 with a 100-character summary and no marker; the
    filter, whose minimum is the literal 1000, rejects it. *)
Lemma is_quality_article_rejects_101 :
  length (repeat 97%N 101) = 101 /\
  100 <= length (repeat 97%N 100) /\
  has_marker ascii_lower (lit "Python") (repeat 97%N 100) = false /\
  is_quality_article ascii_lower (lit "Python") (repeat 97%N 101) (repeat 97%N 100)
  = false.
Proof. vm_compute. repeat split; lia. Qed.

(** ** Sorting *)

Section InsertionSort.

Context {A : Type} (leb : A -> A -> bool) (R : A -> A -> Prop).
Hypothesis leb_true : forall a b, leb a b = true -> R a b.
Hypothesis leb_false : forall a b, leb a b = false -> R b a.
Hypothesis R_trans : forall a b c, R a b -> R b c -> R a c.

Lemma insert_by_perm (x : A) (l : list A) : Permutation (insert_by leb x l) (x :: l).
Proof.
  induction l as [|y l IH]; simpl; [reflexivity|].
  destruct (leb x y); [reflexivity|].
  rewrite IH. apply perm_swap.
Qed.

Lemma isort_by_perm (l : list A) : Permutation (isort_by leb l) l.
Proof.
  induction l as [|x l IH]; simpl; [reflexivity|].
  rewrite insert_by_perm. now constructor.
Qed.

Lemma insert_by_sorted (x : A) (l : list A) :
  StronglySorted R l -> StronglySorted R (insert_by leb x l).
Proof.
  induction 1 as [|y l Hl IH Hy]; simpl; [repeat constructor|].
  destruct (leb x y) eqn:E.
  - constructor; [now constructor|]. constructor; [now apply leb_true|].
    eapply List.Forall_impl; [|exact Hy]. intros z Hz.
    eapply R_trans; [apply leb_true; exact E|exact Hz].
  - constructor; [exact IH|].
    rewrite (insert_by_perm x l). constructor; [now apply leb_false|exact Hy].
Qed.

Lemma isort_by_sorted (l : list A) : StronglySorted R (isort_by leb l).
Proof.
  induction l as [|x l IH]; simpl; [constructor|]. now apply insert_by_sorted.
Qed.

End InsertionSort.

Lemma StronglySorted_sublist {A} (R : A -> A -> Prop) (k l : list A) :
  sublist k l -> StronglySorted R l -> StronglySorted R k.
Proof.
  induction 1 as [|x k l Hkl IH|x k l Hkl IH]; intros Hs.
  - constructor.
  - inversion Hs as [|? ? Hl Hx]; subst. constructor; [now apply IH|].
    rewrite List.Forall_forall in *. intros y Hy. apply Hx.
    apply list_elem_of_In. eapply elem_of_sublist; [|exact Hkl].
    now apply list_elem_of_In.
  - inversion Hs; subst. now apply IH.
Qed.

Lemma StronglySorted_snoc {A} (R : A -> A -> Prop) (l : list A) (x : A) :
  StronglySorted R l -> Forall (fun a => R a x) l -> StronglySorted R (l ++ [x]).
Proof.
  induction 1 as [|y l Hl IH Hy]; intros Hx; simpl; [repeat constructor|].
  inversion Hx; subst. constructor; [now apply IH|].
  apply Forall_app. split; [exact Hy|]. now repeat constructor.
Qed.

Lemma StronglySorted_rev {A} (R : A -> A -> Prop) (l : list A) :
  StronglySorted R l -> StronglySorted (fun a b => R b a) (rev l).
Proof.
  induction 1 as [|x l Hl IH Hx]; simpl; [constructor|].
  apply StronglySorted_snoc; [exact IH|].
  rewrite List.Forall_forall in *. intros a Ha. apply Hx. now apply in_rev.
Qed.

Lemma sublist_rev {A} (k l : list A) : sublist k l -> sublist (rev k) (rev l).
Proof.
  induction 1 as [|x k l Hkl IH|x k l Hkl IH]; simpl.
  - constructor.
  - apply sublist_app; [exact IH|reflexivity].
  - now apply sublist_inserts_r.
Qed.

Lemma StronglySorted_map {A B} (f : A -> B) (R : B -> B -> Prop) (l : list A) :
  StronglySorted (fun a b => R (f a) (f b)) l -> StronglySorted R (map f l).
Proof.
  induction 1 as [|x l Hl IH Hx]; simpl; constructor; [exact IH|].
  rewrite List.Forall_forall in *. intros y Hy.
  apply in_map_iff in Hy as [z [<- Hz]]. now apply Hx.
Qed.

Lemma Qgtb_spec (a b : Q) : Qgtb a b = true <-> (b < a)%Q.
Proof.
  unfold Qgtb. rewrite negb_true_iff. split.
  - intros H. apply Qnot_le_lt. intros Hle. apply Qle_bool_iff in Hle. congruence.
  - intros H. destruct (Qle_bool a b) eqn:E; [|reflexivity].
    apply Qle_bool_iff in E. exfalso. exact (Qlt_not_le _ _ H E).
Qed.

Lemma Qle_bool_false (a b : Q) : Qle_bool a b = false -> (b <= a)%Q.
Proof.
  intros H. apply Qlt_le_weak, Qnot_le_lt. intros Hle.
  apply Qle_bool_iff in Hle. congruence.
Qed.

(** The stable argsort meets the interface. *)
#[export] Instance stable_Argsort : Argsort.
Proof.
  refine {| argsort := stable_argsort |}.
  - intros v. apply isort_by_perm.
  - intros v. unfold stable_argsort.
    apply isort_by_sorted.
    + intros a b. apply Qle_bool_imp_le.
    + intros a b. apply Qle_bool_false.
    + intros a b c. apply Qle_trans.
Defined.

(** ** Ranked search *)

Lemma py_slice_from_sublist {A} (k : Z) (l : list A) : sublist (py_slice_from k l) l.
Proof. unfold py_slice_from. apply sublist_drop. Qed.

Lemma py_slice_from_last {A} (limit : Z) (l : list A) :
  (1 <= limit)%Z -> (Z.of_nat (length (py_slice_from (- limit) l)) <= limit)%Z.
Proof.
  intros Hl. unfold py_slice_from.
  destruct (Z.ltb_spec (- limit) 0); [|lia].
  rewrite length_skipn. lia.
Qed.

Lemma collect_hits_spec (ids : list Z) (db : Z -> option row) (sims : list Q)
    (idxs : list nat) :
  Forall (fun i => i < length ids) idxs ->
  exists hits kept,
    collect_hits ids db sims idxs = Returns hits /\
    sublist kept idxs /\
    Forall2 (hit_of ids sims) hits kept /\
    Forall (fun i => (min_relevance < score_at sims i)%Q) kept.
Proof.
  induction 1 as [|i idxs Hi Hidxs IH].
  - exists [], []. repeat split; constructor.
  - destruct IH as [hits [kept [Heq [Hsub [Hof Hthr]]]]].
    cbn [collect_hits]. cbv zeta.
    destruct (Qgtb (score_at sims i) min_relevance) eqn:Hgt.
    + apply Qgtb_spec in Hgt.
      destruct (nth_error ids i) as [id|] eqn:Hid.
      * destruct (db id) as [r|].
        -- rewrite Heq. simpl.
           exists (mk_hit id r (score_at sims i) :: hits), (i :: kept).
           repeat split; [now constructor| |now constructor].
           constructor; [|exact Hof]. split; [exact Hid|reflexivity].
        -- exists hits, kept. repeat split; auto. now constructor.
      * apply nth_error_None in Hid. lia.
    + exists hits, kept. repeat split; auto. now constructor.
Qed.

Lemma hits_sorted (ids : list Z) (sims : list Q) (hits : list hit) (kept : list nat) :
  Forall2 (hit_of ids sims) hits kept ->
  StronglySorted (fun i j => (score_at sims j <= score_at sims i)%Q) kept ->
  StronglySorted (fun a b => (hit_score b <= hit_score a)%Q) hits.
Proof.
  induction 1 as [|h i hits kept [_ Hh] Hrest IH]; intros Hs; [constructor|].
  inversion Hs as [|? ? Hs' Hi]; subst. constructor; [now apply IH|].
  clear IH Hs Hs'. induction Hrest as [|h' j hits kept [_ Hh'] Hrest IH]; [constructor|].
  inversion Hi; subst. constructor; [|now apply IH].
  now rewrite Hh, Hh'.
Qed.

Lemma min_relevance_above : (1 # 100 < min_relevance)%Q.
Proof. reflexivity. Qed.

(** The hits of a search are built, in order, from positions kept out of the
    reversed tail of the argsort. *)
Lemma advanced_search_kept `{Argsort} (lower : str -> str) (m : SearchModel)
    (db : Z -> option row) (query : str) (limit : Z) :
  well_formed m ->
  exists hits kept,
    advanced_search lower (Some m) db query limit = Returns hits /\
    sublist kept
      (rev (py_slice_from (- limit)
              (argsort (query_similarities m (preprocess_text lower query))))) /\
    Forall2 (hit_of (article_ids m)
               (query_similarities m (preprocess_text lower query))) hits kept /\
    Forall (fun i => (min_relevance
                      < score_at (query_similarities m (preprocess_text lower query)) i)%Q)
      kept.
Proof.
  intros [Hwf _]. unfold advanced_search.
  set (sims := query_similarities m (preprocess_text lower query)).
  set (top := rev (py_slice_from (- limit) (argsort sims))).
  apply collect_hits_spec.
  rewrite List.Forall_forall. intros i Hi.
  apply in_rev in Hi. apply list_elem_of_In in Hi.
  eapply elem_of_sublist in Hi; [|apply py_slice_from_sublist].
  apply list_elem_of_In in Hi.
  apply (Permutation_in _ (argsort_perm sims)) in Hi.
  apply in_seq in Hi. unfold sims in Hi. rewrite Hwf in Hi. lia.
Qed.

Lemma top_indices_sublist `{Argsort} (limit : Z) (sims : list Q) :
  sublist (rev (py_slice_from (- limit) (argsort sims))) (rev (argsort sims)).
Proof. apply sublist_rev, py_slice_from_sublist. Qed.

(** C1, as the code has it.  On a built model and for a limit of at least 1,
    [advanced_search] returns at most [limit] hits, each with a similarity
    above the threshold 0.01, in non-increasing order of similarity.  The
    hits follow the reversed [argsort] order: equal similarities come out in
    the reverse of the order [argsort] left them in, and no tie-break on the
    document id is applied.  The result is a function of the model, the
    store, the query and the limit. *)
Theorem advanced_search_ranking `{Argsort} (lower : str -> str) (m : SearchModel)
    (db : Z -> option row) (query : str) (limit : Z) :
  well_formed m ->
  (1 <= limit)%Z ->
  exists hits kept,
    advanced_search lower (Some m) db query limit = Returns hits /\
    (Z.of_nat (length hits) <= limit)%Z /\
    Forall (fun h => (1 # 100 < hit_score h)%Q) hits /\
    StronglySorted (fun a b => (hit_score b <= hit_score a)%Q) hits /\
    sublist kept
      (rev (argsort (query_similarities m (preprocess_text lower query)))) /\
    Forall2 (hit_of (article_ids m)
               (query_similarities m (preprocess_text lower query))) hits kept.
Proof.
  intros Hwf Hlimit.
  destruct (advanced_search_kept lower m db query limit Hwf)
    as [hits [kept [Heq [Hk [Hof Hthr]]]]].
  set (sims := query_similarities m (preprocess_text lower query)) in *.
  pose proof (top_indices_sublist limit sims) as Hsub.
  exists hits, kept. split; [exact Heq|]. repeat split.
  - apply Forall2_length in Hof. apply sublist_length in Hk.
    pose proof (py_slice_from_last limit (argsort sims) Hlimit) as Hlen.
    rewrite length_rev in Hk. lia.
  - clear Heq Hk. induction Hof as [|h i hits kept [_ Hh] Hrest IH]; [constructor|].
    inversion Hthr; subst. constructor; [|now apply IH].
    rewrite Hh. eapply Qlt_trans; [exact min_relevance_above|assumption].
  - apply (hits_sorted (article_ids m) sims hits kept Hof).
    apply (StronglySorted_sublist _ kept (rev (argsort sims))).
    + etransitivity; [exact Hk|exact Hsub].
    + apply (StronglySorted_rev _ _ (argsort_sorted sims)).
  - etransitivity; [exact Hk|exact Hsub].
  - exact Hof.
Qed.

Lemma example_model_well_formed : well_formed example_model.
Proof. split; intros; reflexivity. Qed.

Lemma advanced_search_ranking_witness :
  exists hits kept,
    advanced_search ascii_lower (Some example_model) example_db (lit "q") 2
    = Returns hits /\
    (Z.of_nat (length hits) <= 2)%Z /\
    Forall (fun h => (1 # 100 < hit_score h)%Q) hits /\
    StronglySorted (fun a b => (hit_score b <= hit_score a)%Q) hits /\
    sublist kept
      (rev (argsort (query_similarities example_model
                       (preprocess_text ascii_lower (lit "q"))))) /\
    Forall2 (hit_of (article_ids example_model)
               (query_similarities example_model
                  (preprocess_text ascii_lower (lit "q")))) hits kept.
Proof.
  apply (advanced_search_ranking ascii_lower example_model example_db (lit "q") 2).
  - exact example_model_well_formed.
  - lia.
Defined.

(** C1, as stated, fails twice on the three-article index whose first two
    articles score alike.  With limit 2 the two tied articles come out with
    the higher id first; with limit 0 the slice [[-0:]] keeps every
    position and three hits are returned. *)
Lemma advanced_search_ties_and_limit_0 :
  (exists hits,
     advanced_search ascii_lower (Some example_model) example_db (lit "q") 2
     = Returns hits /\
     map hit_id hits = [2; 1]%Z /\ map hit_score hits = [1 # 2; 1 # 2]%Q) /\
  (exists hits,
     advanced_search ascii_lower (Some example_model) example_db (lit "q") 0
     = Returns hits /\ length hits = 3).
Proof.
  split; eexists; (split; [vm_compute; reflexivity|]); vm_compute; auto.
Qed.

Lemma insert_by_stable (v : list Q) (x : nat) (l : list nat) :
  StronglySorted (score_then_position v) l ->
  Forall (lt x) l ->
  StronglySorted (score_then_position v)
    (insert_by (fun i j => Qle_bool (score_at v i) (score_at v j)) x l).
Proof.
  induction 1 as [|y l Hl IH Hy]; intros Hx; simpl; [repeat constructor|].
  inversion Hx as [|? ? Hxy Hxl]; subst.
  destruct (Qle_bool (score_at v x) (score_at v y)) eqn:E.
  - constructor; [now constructor|].
    apply Qle_bool_iff in E.
    assert (Hle : forall z, x < z -> (score_at v y <= score_at v z)%Q ->
                            score_then_position v x z).
    { intros z Hz Hyz. pose proof (Qle_trans _ _ _ E Hyz) as Hxz.
      apply Qle_lteq in Hxz as [Hlt|Heq]; [now left|right; auto]. }
    constructor; [apply Hle; [exact Hxy|apply Qle_refl]|].
    rewrite List.Forall_forall in *. intros z Hz. apply Hle; [now apply Hxl|].
    destruct (Hy z Hz) as [Hlt|[Heq _]]; [now apply Qlt_le_weak|].
    rewrite Heq. apply Qle_refl.
  - constructor; [now apply IH|].
    rewrite (insert_by_perm _ x l). constructor; [|exact Hy].
    left. apply Qnot_le_lt. intros Hle. apply Qle_bool_iff in Hle. congruence.
Qed.

Lemma stable_argsort_order (v : list Q) :
  StronglySorted (score_then_position v) (stable_argsort v).
Proof.
  unfold stable_argsort. generalize 0 as start.
  induction (length v) as [|n IH]; intros start; simpl; [constructor|].
  apply insert_by_stable; [apply IH|].
  rewrite (isort_by_perm _ (seq (S start) n)).
  rewrite List.Forall_forall. intros z Hz. apply in_seq in Hz. lia.
Qed.

Lemma ascending_ids (ids : list Z) (i j : nat) (a b : Z) :
  StronglySorted Z.lt ids ->
  nth_error ids i = Some a -> nth_error ids j = Some b -> i < j -> (a < b)%Z.
Proof.
  intros Hs. revert i j. induction Hs as [|x ids Hs IH Hx]; intros i j Hi Hj Hij.
  - destruct i; discriminate.
  - destruct j as [|j]; [lia|]. simpl in Hj. destruct i as [|i].
    + simpl in Hi. injection Hi as <-. rewrite List.Forall_forall in Hx.
      apply Hx. eapply nth_error_In; exact Hj.
    + simpl in Hi. apply (IH i j); auto. lia.
Qed.

(** For the stable instance of the interface, and ids ascending in row order
    (the index is built [ORDER BY id]), hits of equal similarity come out by
    descending id, whatever the limit.  This is a fact about that instance:
    numpy's default sort promises no order on equal values. *)
Lemma advanced_search_stable_ties (lower : str -> str) (m : SearchModel)
    (db : Z -> option row) (query : str) (limit : Z) :
  well_formed m ->
  StronglySorted Z.lt (article_ids m) ->
  exists hits,
    advanced_search (H := stable_Argsort) lower (Some m) db query limit
    = Returns hits /\
    StronglySorted
      (fun a b => (hit_score a == hit_score b)%Q -> (hit_id b < hit_id a)%Z) hits.
Proof.
  intros Hwf Hids.
  destruct (advanced_search_kept (H := stable_Argsort) lower m db query limit Hwf)
    as [hits [kept [Heq [Hsub [Hof _]]]]].
  exists hits. split; [exact Heq|].
  set (sims := query_similarities m (preprocess_text lower query)) in *.
  assert (Hk : StronglySorted (fun i j => score_then_position sims j i) kept).
  { apply (StronglySorted_sublist _ kept (rev (argsort sims))).
    - etransitivity; [exact Hsub|apply top_indices_sublist].
    - apply StronglySorted_rev. apply stable_argsort_order. }
  clear Heq Hsub. revert Hk.
  induction Hof as [|h i hits kept [Hid Hh] Hrest IH]; intros Hk; [constructor|].
  inversion Hk as [|? ? Hk' Hi]; subst. constructor; [now apply IH|].
  clear IH Hk Hk'. induction Hrest as [|h' j hits kept [Hid' Hh'] Hrest IH];
    [constructor|].
  inversion Hi as [|? ? Hji Hi']; subst. constructor; [|now apply IH].
  intros Heq. rewrite Hh, Hh' in Heq.
  destruct Hji as [Hlt|[_ Hlt]].
  - rewrite Heq in Hlt. exfalso. exact (Qlt_irrefl _ Hlt).
  - exact (ascending_ids _ _ _ _ _ Hids Hid' Hid Hlt).
Qed.

(** ** Related articles *)

Lemma list_index_None (x : Z) (l : list Z) : list_index x l = None <-> ~ In x l.
Proof.
  induction l as [|y l IH]; simpl; [tauto|].
  destruct (Z.eqb_spec y x) as [->|Hne].
  - split; [discriminate|intros H; exfalso; apply H; now left].
  - destruct (list_index x l); simpl.
    + split; [discriminate|]. intros H. exfalso. apply H. right.
      destruct IH as [IH1 IH2].
      destruct (in_dec Z.eq_dec x l) as [Hin|Hout]; [exact Hin|].
      now specialize (IH2 Hout).
    + split; [|reflexivity]. intros _ [Heq|Hin]; [congruence|].
      now apply IH.
Qed.

(** C4, as the code has it.  For an id absent from [article_ids],
    [get_related_articles] returns the empty list to its caller, whatever
    the limit: the [ValueError] of the lookup is caught inside the
    function, and nothing is raised. *)
Theorem get_related_articles_absent `{Argsort} (engine : option SearchModel)
    (db : Z -> option row) (article_id : Z) (limit : Z) :
  (forall m, engine = Some m -> ~ In article_id (article_ids m)) ->
  get_related_articles engine db article_id limit = Returns [].
Proof.
  intros Habs. destruct engine as [m|]; [|reflexivity].
  unfold get_related_articles.
  now rewrite (proj2 (list_index_None article_id (article_ids m)) (Habs m eq_refl)).
Qed.

Lemma get_related_articles_absent_witness :
  get_related_articles (Some example_model) example_db 7 10 = Returns [].
Proof.
  apply (get_related_articles_absent (Some example_model) example_db 7 10).
  intros m [= <-]. vm_compute. intuition discriminate.
Defined.

(** C4, as stated, fails: id 7 is not indexed, and the call returns the
    empty result instead of raising. *)
Lemma get_related_articles_no_error :
  ~ In 7%Z (article_ids example_model) /\
  get_related_articles (Some example_model) example_db 7 10 = Returns [] /\
  forall e, get_related_articles (Some example_model) example_db 7 10 <> Raises e.
Proof.
  split; [vm_compute; intuition discriminate|].
  split; [reflexivity|]. intros e. vm_compute. discriminate.
Qed.

(** ** Suggestions *)

Lemma key_leb_true (a b : nat * nat) : key_leb a b = true -> key_le a b.
Proof.
  unfold key_leb, key_le. intros H. apply orb_true_iff in H as [H|H].
  - left. now apply Nat.ltb_lt.
  - right. apply andb_true_iff in H as [H1 H2].
    split; [now apply Nat.eqb_eq|now apply Nat.leb_le].
Qed.

Lemma key_leb_false (a b : nat * nat) : key_leb a b = false -> key_le b a.
Proof.
  unfold key_leb, key_le. intros H. apply orb_false_iff in H as [H1 H2].
  apply Nat.ltb_ge in H1. apply andb_false_iff in H2 as [H2|H2].
  - apply Nat.eqb_neq in H2. left. lia.
  - apply Nat.leb_gt in H2. lia.
Qed.

Lemma key_le_trans (a b c : nat * nat) : key_le a b -> key_le b c -> key_le a c.
Proof. unfold key_le. lia. Qed.

(** The executable engine meets the interface. *)
#[export] Instance scan_engine : SqlEngine.
Proof.
  refine {| like := like_ci; sql_length := utf8_length; order_by := scan_order_by |}.
  - intros k l. apply isort_by_perm.
  - intros k l. unfold scan_order_by.
    apply (isort_by_sorted _ (fun a b => key_le (k a) (k b))).
    + intros a b. apply key_leb_true.
    + intros a b. apply key_leb_false.
    + intros a b c. apply key_le_trans.
Defined.

Lemma key_le_suggestion_order `{SqlEngine} (q a b : str) :
  key_le (suggestion_key q a) (suggestion_key q b) -> suggestion_order q a b.
Proof.
  unfold key_le, suggestion_key, suggestion_order. simpl.
  destruct (like (starts_pattern q) a), (like (starts_pattern q) b);
    intros [Hlt|[Heq Hle]]; split; intros; try lia; try congruence; auto.
Qed.

(** What the query returns, in the terms of [LIKE]: at most [limit] titles of
    the table, each matching one of the two patterns, sorted by the key of
    the [ORDER BY] clause. *)
Lemma search_suggestions_like `{SqlEngine} (titles : list str) (db_up : bool)
    (partial_query : str) (limit : Z) :
  (length partial_query < 2 ->
   search_suggestions titles db_up partial_query limit = []) /\
  (Z.of_nat (length (search_suggestions titles db_up partial_query limit))
   <= Z.max 0 limit)%Z /\
  Forall (fun t => In t titles /\ suggestion_match partial_query t = true)
    (search_suggestions titles db_up partial_query limit) /\
  StronglySorted (suggestion_order partial_query)
    (search_suggestions titles db_up partial_query limit).
Proof.
  unfold search_suggestions.
  destruct (Nat.ltb_spec (length partial_query) 2) as [Hshort|Hlong].
  { split; [reflexivity|]. split; [simpl; lia|]. split; constructor. }
  split; [lia|].
  destruct (negb db_up || (limit <? 0)%Z) eqn:Hguard.
  { split; [simpl; lia|]. split; constructor. }
  set (matched := List.filter (suggestion_match partial_query) (remove_dups titles)).
  set (sorted := order_by (suggestion_key partial_query) matched).
  assert (Hsub : sublist (firstn (Z.to_nat limit) sorted) sorted)
    by apply sublist_take.
  repeat split.
  - rewrite length_firstn. lia.
  - rewrite List.Forall_forall. intros t Ht.
    apply list_elem_of_In in Ht. eapply elem_of_sublist in Ht; [|exact Hsub].
    apply list_elem_of_In in Ht.
    apply (Permutation_in _ (order_by_perm _ matched)) in Ht.
    apply filter_In in Ht as [Ht Hm]. split; [|exact Hm].
    apply list_elem_of_In, (elem_of_remove_dups titles t), list_elem_of_In.
    exact Ht.
  - apply (StronglySorted_sublist _ _ sorted Hsub).
    pose proof (order_by_sorted (suggestion_key partial_query) matched) as Hs.
    fold sorted in Hs. clearbody sorted. clear Hsub.
    induction Hs as [|a l Hl IH Ha]; constructor; [exact IH|].
    eapply List.Forall_impl; [|exact Ha]. intros b. apply key_le_suggestion_order.
Qed.

(** [LIKE] of the executable engine, one pattern character at a time. *)
Lemma like_ci_percent_nil (pat : str) : like_ci (37%N :: pat) [] = like_ci pat [].
Proof. cbn [like_ci]. cbn. apply orb_false_r. Qed.

Lemma like_ci_percent_cons (pat : str) (c : N) (s : str) :
  like_ci (37%N :: pat) (c :: s) = like_ci pat (c :: s) || like_ci (37%N :: pat) s.
Proof. reflexivity. Qed.

Lemma like_ci_literal (p : N) (pat s : str) :
  like_special p = false ->
  like_ci (p :: pat) s
  = match s with
    | [] => false
    | c :: s' => (fold_case c =? fold_case p)%N && like_ci pat s'
    end.
Proof.
  unfold like_special. intros Hp.
  apply orb_false_iff in Hp as [Hp H92]. apply orb_false_iff in Hp as [H37 H95].
  cbn [like_ci]. rewrite H37, H95, H92. now destruct pat.
Qed.

Lemma like_ci_any (s : str) : like_ci [37%N] s = true.
Proof.
  induction s as [|c s IH]; [reflexivity|].
  rewrite like_ci_percent_cons, IH. apply orb_true_r.
Qed.

Lemma like_ci_starts (q t : str) :
  wildcard_free q = true ->
  like_ci (q ++ [37%N]) t
  = starts_by (fun c a => (fold_case c =? fold_case a)%N) q t.
Proof.
  revert t. induction q as [|a q IH]; intros t Hq.
  - cbn [app]. rewrite like_ci_any. now destruct t.
  - cbn [wildcard_free forallb] in Hq. apply andb_true_iff in Hq as [Ha Hq].
    apply negb_true_iff in Ha.
    change ((a :: q) ++ [37%N]) with (a :: (q ++ [37%N])).
    rewrite (like_ci_literal a _ t Ha).
    destruct t as [|c t]; [reflexivity|].
    cbn [starts_by]. now rewrite (IH t Hq).
Qed.

Lemma like_ci_contains (q t : str) :
  wildcard_free q = true ->
  like_ci (37%N :: q ++ [37%N]) t
  = contains_by (fun c a => (fold_case c =? fold_case a)%N) q t.
Proof.
  intros Hq. induction t as [|c t IH].
  - rewrite like_ci_percent_nil, (like_ci_starts q [] Hq).
    cbn [contains_by]. now rewrite orb_false_r.
  - rewrite like_ci_percent_cons, IH, (like_ci_starts q (c :: t) Hq). reflexivity.
Qed.

(** The executable engine compares a literal partial query character by
    character, ASCII letters without case. *)
#[export] Instance scan_literal : @LikeLiteral scan_engine.
Proof.
  refine {| same_char := fun c a => (fold_case c =? fold_case a)%N |}.
  - intros q t Hq. exact (like_ci_starts q t Hq).
  - intros q t Hq. exact (like_ci_contains q t Hq).
Defined.

(** An engine with its rows of equal keys the other way round is an engine
    as well: [ORDER BY] does not tell the two apart. *)
Definition flip_ties (E : SqlEngine) : SqlEngine.
Proof.
  refine {| like := @like E; sql_length := @sql_length E;
            order_by := flip_order_by (@order_by E) |}.
  - intros k l. unfold flip_order_by, scan_order_by.
    rewrite isort_by_perm, <- Permutation_rev. apply order_by_perm.
  - intros k l. unfold flip_order_by, scan_order_by.
    apply (isort_by_sorted _ (fun a b => key_le (k a) (k b))).
    + intros a b. apply key_leb_true.
    + intros a b. apply key_leb_false.
    + intros a b c. apply key_le_trans.
Defined.

Lemma key_leb_refl (a : nat * nat) : key_leb a a = true.
Proof. unfold key_leb. rewrite Nat.eqb_refl, Nat.leb_refl. apply orb_true_r. Qed.

(** Two titles that the query's key does not tell apart come out in either
    order: whatever the engine, it or the engine with its ties the other
    way round returns them as [[b; a]]. *)
Lemma search_suggestions_tie_either_order (E : SqlEngine) (a b q : str) (limit : Z) :
  a <> b -> 2 <= length q -> (2 <= limit)%Z ->
  @suggestion_match E q a = true -> @suggestion_match E q b = true ->
  @suggestion_key E q a = @suggestion_key E q b ->
  @search_suggestions E [a; b] true q limit = [b; a]
  \/ @search_suggestions (flip_ties E) [a; b] true q limit = [b; a].
Proof.
  intros Hab Hq Hlimit Ha Hb Hkey.
  assert (Hcut : forall l : list str, length l = 2 -> firstn (Z.to_nat limit) l = l).
  { intros l Hl. apply firstn_all2. lia. }
  assert (Hrows : forall E' : SqlEngine,
            @suggestion_match E' q = @suggestion_match E q ->
            List.filter (@suggestion_match E' q) (remove_dups [a; b]) = [a; b]).
  { intros E' ->. cbn [remove_dups].
    destruct (decide_rel elem_of a [b]) as [Hin|_].
    { apply list_elem_of_In in Hin. destruct Hin as [Hin|[]]. congruence. }
    destruct (decide_rel elem_of b []) as [Hin|_].
    { apply list_elem_of_In in Hin. destruct Hin. }
    cbn [List.filter]. now rewrite Ha, Hb. }
  unfold search_suggestions.
  destruct (Nat.ltb_spec (length q) 2) as [Hshort|_]; [lia|].
  destruct (Z.ltb_spec limit 0) as [Hneg|_]; [lia|]. cbn [negb orb].
  rewrite !Hrows by reflexivity.
  destruct (Permutation_length_2_inv
              (Permutation_sym (@order_by_perm E (@suggestion_key E q) [a; b])))
    as [Hsame|Hswap].
  - right. change (@order_by (flip_ties E) (@suggestion_key (flip_ties E) q) [a; b])
      with (scan_order_by (@suggestion_key E q)
              (rev (@order_by E (@suggestion_key E q) [a; b]))).
    rewrite Hsame. unfold scan_order_by. cbn [rev app isort_by insert_by].
    rewrite Hkey, key_leb_refl. now apply Hcut.
  - left. rewrite Hswap. now apply Hcut.
Qed.

(** C5, as the code has it.  A partial query shorter than 2 gives the empty
    list, and no call returns more than [limit] titles.  For a partial query
    that holds none of the special characters of [LIKE], every returned title
    is a title of the table that has the partial query as a prefix or as a
    substring, characters compared as the collation compares them; every
    title with the prefix stands before every title without it, and within
    a class a shorter title (by [LENGTH]) never follows a longer one.  The
    query has no further sort key. *)
Theorem search_suggestions_spec `{SqlEngine} `{!LikeLiteral} (titles : list str)
    (db_up : bool) (partial_query : str) (limit : Z) :
  (length partial_query < 2 ->
   search_suggestions titles db_up partial_query limit = []) /\
  (Z.of_nat (length (search_suggestions titles db_up partial_query limit))
   <= Z.max 0 limit)%Z /\
  (wildcard_free partial_query = true ->
   Forall (fun t => In t titles /\
                    (starts_by same_char partial_query t = true
                     \/ contains_by same_char partial_query t = true))
     (search_suggestions titles db_up partial_query limit) /\
   StronglySorted (prefix_then_length partial_query)
     (search_suggestions titles db_up partial_query limit)).
Proof.
  destruct (search_suggestions_like titles db_up partial_query limit)
    as (Hshort & Hlen & Hmatch & Hsorted).
  split; [exact Hshort|]. split; [exact Hlen|]. intros Hq. split.
  - eapply List.Forall_impl; [|exact Hmatch]. intros t [Hin Hm].
    split; [exact Hin|]. unfold suggestion_match in Hm.
    rewrite (like_prefix _ _ Hq), (like_substring _ _ Hq) in Hm.
    now apply orb_true_iff in Hm.
  - clear Hshort Hlen Hmatch. revert Hsorted.
    generalize (search_suggestions titles db_up partial_query limit).
    intros l Hs. induction Hs as [|a l Hl IH Ha]; constructor; [exact IH|].
    eapply List.Forall_impl; [|exact Ha]. intros b.
    unfold suggestion_order, prefix_then_length.
    now rewrite !(like_prefix _ _ Hq).
Qed.

Lemma search_suggestions_spec_witness :
  wildcard_free (lit "Cat") = true /\
  search_suggestions
    (map lit ["Concatenation"; "Category Theory"; "Cat"; "Dog"]%string)
    true (lit "Cat") 10
  = map lit ["Cat"; "Category Theory"; "Concatenation"]%string /\
  Forall (fun t =>
            In t (map lit ["Concatenation"; "Category Theory"; "Cat"; "Dog"]%string)
            /\ (starts_by same_char (lit "Cat") t = true
                \/ contains_by same_char (lit "Cat") t = true))
    (search_suggestions
       (map lit ["Concatenation"; "Category Theory"; "Cat"; "Dog"]%string)
       true (lit "Cat") 10) /\
  StronglySorted (prefix_then_length (lit "Cat"))
    (search_suggestions
       (map lit ["Concatenation"; "Category Theory"; "Cat"; "Dog"]%string)
       true (lit "Cat") 10).
Proof.
  split; [reflexivity|]. split; [reflexivity|].
  exact (proj2 (proj2 (search_suggestions_spec
                         (map lit ["Concatenation"; "Category Theory"; "Cat"; "Dog"]%string)
                         true (lit "Cat") 10)) eq_refl).
Defined.

(** The ordering example of the specification. *)
Example search_suggestions_cat :
  search_suggestions
    (map lit ["Cat"; "Category Theory"; "Concatenation"]%string)
    true (lit "Cat") 10
  = map lit ["Cat"; "Category Theory"; "Concatenation"]%string.
Proof. reflexivity. Qed.

(** C5, as stated, fails.  "Cata" and "Catb" both start with "Cat" and are
    equally long, so the query's key does not tell them apart and the
    engine orders them as it likes: the engine that leaves equal keys in scan
    order returns the rows ["Catb"; "Cata"] as they are, and the engine that
    turns equal keys round returns the rows ["Cata"; "Catb"] the same way,
    each time with "Catb" before "Cata".  So neighbours of one class and one
    length need not stand in lexicographic order. *)
Lemma search_suggestions_no_lexicographic_key :
  suggestion_key (lit "Cat") (lit "Cata") = suggestion_key (lit "Cat") (lit "Catb") /\
  starts_by same_char (lit "Cat") (lit "Cata") = true /\
  starts_by same_char (lit "Cat") (lit "Catb") = true /\
  sql_length (lit "Cata") = sql_length (lit "Catb") /\
  str_ltb (lit "Cata") (lit "Catb") = true /\
  @search_suggestions scan_engine (map lit ["Catb"; "Cata"]%string) true (lit "Cat") 10
  = map lit ["Catb"; "Cata"]%string /\
  @search_suggestions (flip_ties scan_engine) (map lit ["Cata"; "Catb"]%string)
    true (lit "Cat") 10
  = map lit ["Catb"; "Cata"]%string /\
  ~ (forall (E : SqlEngine) (L : @LikeLiteral E) (titles : list str) (q : str)
            (limit : Z) (a b : str) (before after : list str),
       @search_suggestions E titles true q limit = before ++ a :: b :: after ->
       @starts_by (@same_char E L) q a = @starts_by (@same_char E L) q b ->
       @sql_length E a = @sql_length E b ->
       str_ltb a b = true).
Proof.
  repeat (split; [reflexivity|]).
  intros Hclaim.
  specialize (Hclaim scan_engine scan_literal (map lit ["Catb"; "Cata"]%string)
                (lit "Cat") 10%Z (lit "Catb") (lit "Cata") [] []
                eq_refl eq_refl eq_refl).
  discriminate Hclaim.
Qed.

(** ** The frontier *)

Lemma offer_link_cases (seen : gset str) (q : list str) (l : str) :
  (((l ∈ seen) \/ (QUEUE_LIMIT <= Z.of_nat (length q))%Z) /\
   offer_link seen q l = q)
  \/ (((l ∉ seen) /\ (Z.of_nat (length q) < QUEUE_LIMIT)%Z) /\
      offer_link seen q l = q ++ [l]).
Proof.
  unfold offer_link.
  destruct (decide (l ∈ seen)) as [Hin|Hout].
  - left. rewrite bool_decide_eq_false_2 by tauto. auto.
  - rewrite bool_decide_eq_true_2 by exact Hout. simpl.
    destruct (Z.ltb_spec (Z.of_nat (length q)) QUEUE_LIMIT); [right|left]; auto.
Qed.

Lemma snoc_neq {A} (q : list A) (x : A) : q ++ [x] <> q.
Proof.
  intros H. apply (f_equal (@length A)) in H.
  rewrite length_app in H. simpl in H. lia.
Qed.

Lemma seed_member_article (members : str -> list (str * Z)) (seen : gset str)
    (q : list str) (t : str) :
  t ∉ seen -> seed_member members seen q (t, 0%Z) = q ++ [t].
Proof.
  intros Hout. unfold seed_member. simpl.
  now rewrite bool_decide_eq_true_2 by exact Hout.
Qed.

(** C3, as the code has it.  A worker's offer of a link leaves the queue
    unchanged exactly when the link is already visited or the queue holds
    50000 entries; otherwise the link is appended, whether or not the queue
    already holds it.  Once the queue holds 50000 entries, no sequence of
    offers by workers, under whatever visited sets, grows it. *)
Theorem offer_link_backpressure (seen : gset str) (q : list str) (l : str) :
  (offer_link seen q l = q <->
   (l ∈ seen) \/ (QUEUE_LIMIT <= Z.of_nat (length q))%Z) /\
  (l ∉ seen -> (Z.of_nat (length q) < QUEUE_LIMIT)%Z ->
   offer_link seen q l = q ++ [l]) /\
  ((QUEUE_LIMIT <= Z.of_nat (length q))%Z ->
   forall offers : list (gset str * str),
     fold_left (fun q' o => offer_link (fst o) q' (snd o)) offers q = q).
Proof.
  repeat split.
  - intros Heq. destruct (offer_link_cases seen q l) as [[H _]|[_ H]]; [exact H|].
    rewrite H in Heq. now apply snoc_neq in Heq.
  - intros H. destruct (offer_link_cases seen q l) as [[_ E]|[[H1 H2] _]]; [exact E|].
    destruct H; [contradiction|lia].
  - intros H1 H2. destruct (offer_link_cases seen q l) as [[H _]|[_ E]]; [|exact E].
    destruct H; [contradiction|lia].
  - intros Hfull offers. induction offers as [|[s x] offers IH]; [reflexivity|].
    simpl. destruct (offer_link_cases s q x) as [[_ E]|[[_ H] _]]; [|lia].
    rewrite E. exact IH.
Qed.

Lemma offer_link_backpressure_witness :
  fold_left (fun q' o => offer_link (fst o) q' (snd o))
    [(∅, example_title); ({[example_title]}, lit "B")]
    (repeat example_title (Z.to_nat 50000))
  = repeat example_title (Z.to_nat 50000).
Proof.
  apply (offer_link_backpressure ∅ (repeat example_title (Z.to_nat 50000))
           example_title).
  rewrite repeat_length. unfold QUEUE_LIMIT. lia.
Defined.

(** C3, as stated, fails.  A title that waits in the queue and is not yet
    visited is appended a second time by a worker's offer; and seeding
    appends to a queue of 50000 entries, since [populate_initial_queue]
    tests the visited set only. *)
Lemma offer_link_queued_twice :
  offer_link ∅ [example_title] example_title = [example_title; example_title] /\
  Z.of_nat (length (seed_member example_members ∅
                      (repeat example_title (Z.to_nat 50000)) (lit "B", 0%Z)))
  = 50001%Z.
Proof.
  split; [vm_compute; reflexivity|].
  rewrite seed_member_article by apply not_elem_of_empty.
  rewrite length_app, repeat_length. cbn [length]. lia.
Qed.

(** ** Batch writes *)

(** C7, as the code has it.  A failing batch write is attempted once and not
    again: the error is logged, the table is left as it was, and the next
    pending database outcome is not consumed.  The worker that flushed the
    full buffer clears it whatever the write did, and its loop goes on. *)
Theorem batch_insert_articles_no_retry {K : Collation} (articles : list article)
    (d : database) (later : list bool) :
  articles <> [] ->
  faults d = true :: later ->
  rows (batch_insert_articles articles d) = rows d /\
  executemany_calls (batch_insert_articles articles d) = S (executemany_calls d) /\
  faults (batch_insert_articles articles d) = later /\
  log (batch_insert_articles articles d)
  = log d ++ [(ERROR, "Batch insert error"%string)] /\
  forall (current : str) (a : article) (c : crawler),
    db c = d -> article_batch c ++ [a] = articles ->
    (BATCH_SIZE <= Z.of_nat (length articles))%Z ->
    article_batch (record_result current (Some a) c) = [] /\
    rows (db (record_result current (Some a) c)) = rows d.
Proof.
  intros Hne Hf. unfold batch_insert_articles.
  destruct articles as [|a0 rest]; [congruence|]. rewrite Hf.
  do 4 (split; [reflexivity|]).
  intros current a c Hdb Hbatch Hfull. unfold record_result.
  rewrite Hbatch, (proj2 (Z.leb_le _ _) Hfull). cbn [article_batch db].
  split; [reflexivity|].
  unfold batch_insert_articles. rewrite Hdb, Hf. reflexivity.
Qed.

Lemma batch_insert_articles_no_retry_witness :
  rows (batch_insert_articles [example_article] (empty_database [true; false])) = [] /\
  executemany_calls
    (batch_insert_articles [example_article] (empty_database [true; false])) = 1.
Proof.
  destruct (batch_insert_articles_no_retry [example_article]
              (empty_database [true; false]) [false]) as [Hrows [Hcalls _]].
  - discriminate.
  - reflexivity.
  - split; [exact Hrows|exact Hcalls].
Defined.

(** C7, as stated, fails: the first write of a one-article batch fails and a
    second one would succeed, yet a single [executemany] is issued, the
    table stays empty, and the pending success is left unused. *)
Lemma batch_insert_articles_single_attempt :
  executemany_calls
    (batch_insert_articles [example_article] (empty_database [true; false])) = 1 /\
  rows (batch_insert_articles [example_article] (empty_database [true; false])) = [] /\
  faults (batch_insert_articles [example_article] (empty_database [true; false]))
  = [false] /\
  rows (batch_insert_articles [example_article]
          (batch_insert_articles [example_article] (empty_database [true; false])))
  = [sanitize example_article].
Proof. vm_compute. repeat split. Qed.

(** ** Graceful stop *)

(** C6 at the failing input: an interrupt arrives with one article in the
    buffer.  [run] re-raises before its final batch insert, so the table
    never receives the article; the same state left through the target
    check does write it. *)
Theorem run_finish_interrupted_loses_batch :
  article_batch interrupted_crawler = [example_article] /\
  snd (run_finish Interrupted interrupted_crawler) = Raises KeyboardInterrupt /\
  rows (db (fst (run_finish Interrupted interrupted_crawler))) = [] /\
  rows (db (fst (run_finish TargetReached interrupted_crawler)))
  = [sanitize example_article].
Proof. repeat split. Qed.

(** On every state, an interrupted run leaves the store untouched. *)
Lemma run_finish_interrupted {K : Collation} (c : crawler) :
  run_finish Interrupted c = (c, Raises KeyboardInterrupt).
Proof. reflexivity. Qed.

(** ** Outbound links *)

Lemma linked_titles_of_spec (ls : list link) (ts : list str) :
  linked_titles_of ls = Some ts ->
  map Some ts
  = map link_star (List.filter (fun l => bool_decide (link_ns l = Some 0%Z)) ls).
Proof.
  revert ts. induction ls as [|l ls IH]; intros ts; simpl.
  - now intros [= <-].
  - destruct (decide (link_ns l = Some 0%Z)) as [Hns|Hns].
    + rewrite Hns, bool_decide_eq_true_2 by reflexivity.
      destruct (link_star l) as [t|] eqn:Hstar; [|discriminate].
      destruct (linked_titles_of ls) as [ts'|]; [|discriminate].
      intros [= <-]. simpl. rewrite Hstar. f_equal. now apply IH.
    + rewrite (bool_decide_eq_false_2 _ Hns).
      destruct (link_ns l) as [[|p|p]|]; try congruence; apply IH.
Qed.

Lemma offer_links_length (seen : gset str) (q : list str) (ls : list str) :
  length (offer_links seen q ls) <= length q + LINKS_PER_ARTICLE.
Proof.
  unfold offer_links.
  assert (Hk : forall k q', length (fold_left (offer_link seen) k q')
                            <= length q' + length k).
  { induction k as [|l k IH]; intros q'; simpl; [lia|].
    specialize (IH (offer_link seen q' l)).
    destruct (offer_link_cases seen q' l) as [[_ E]|[_ E]]; rewrite E in *.
    - lia.
    - rewrite length_app in IH. simpl in IH. lia. }
  specialize (Hk (firstn LINKS_PER_ARTICLE ls) q).
  rewrite length_firstn in Hk. lia.
Qed.

(** What the worker's offer of an article's links does to the queue: it
    appends, in order, the unvisited ones among the first ten, as long as
    the queue has room. *)
Lemma offer_links_spec (seen : gset str) (q : list str) (ls : list str) :
  offer_links seen q ls
  = q ++ firstn (Z.to_nat (QUEUE_LIMIT - Z.of_nat (length q)))
          (List.filter (fun l => bool_decide (l ∉ seen)) (firstn 10 ls)).
Proof.
  unfold offer_links. change LINKS_PER_ARTICLE with 10.
  generalize (firstn 10 ls) as k. intros k. revert q.
  induction k as [|l k IH]; intros q.
  - cbn. rewrite firstn_nil. now rewrite app_nil_r.
  - cbn [fold_left List.filter]. rewrite IH.
    destruct (offer_link_cases seen q l) as [[[Hin|Hfull] ->]|[[Hout Hroom] ->]].
    + now rewrite bool_decide_eq_false_2 by tauto.
    + replace (Z.to_nat (QUEUE_LIMIT - Z.of_nat (length q))) with 0 by lia.
      now rewrite !firstn_O.
    + rewrite bool_decide_eq_true_2 by exact Hout.
      rewrite length_app. cbn [length].
      replace (Z.to_nat (QUEUE_LIMIT - Z.of_nat (length q)))
        with (S (Z.to_nat (QUEUE_LIMIT - Z.of_nat (length q + 1)))) by lia.
      cbn [firstn]. now rewrite <- app_assoc.
Qed.

(** C8, as the code has it.  The links of a fetched article are the titles
    of all the main-namespace entries of the page, in page order, with no
    cap; the cap is the worker's, which offers the first 10 of them and no
    other to the queue: the queue after the offer is the queue before it
    followed, in order and as far as the queue has room, by those of the
    first 10 links that are not visited. *)
Theorem fetch_article_links (lower : str -> str) (clean_html_content : str -> str)
    (get_summary : str -> response summary_data)
    (get_content : str -> response content_data)
    (seen : gset str) (t : str) (a : article) :
  fetch_article lower clean_html_content get_summary get_content seen t = Some a ->
  (exists cd,
     get_content t = Resp 200 cd /\
     map Some (links a)
     = map link_star
         (List.filter (fun l => bool_decide (link_ns l = Some 0%Z)) (cd_links cd))) /\
  (forall (seen' : gset str) (q : list str),
     offer_links seen' q (links a)
     = q ++ firstn (Z.to_nat (QUEUE_LIMIT - Z.of_nat (length q)))
             (List.filter (fun l => bool_decide (l ∉ seen'))
                (firstn 10 (links a)))) /\
  forall (seen' : gset str) (q : list str),
    length (offer_links seen' q (links a)) <= length q + 10.
Proof.
  unfold fetch_article. intros Hf.
  split; [|split; intros; [apply offer_links_spec|apply offer_links_length]].
  destruct (decide (t ∈ seen)); [discriminate|].
  destruct (get_summary t) as [ss sd|]; [|discriminate].
  destruct (negb (ss =? 200)%Z); [discriminate|].
  destruct (get_content t) as [cs cd|]; [|discriminate].
  destruct (Z.eqb_spec cs 200) as [->|]; [|discriminate]. simpl in Hf.
  destruct (negb (is_quality_article lower (sd_title sd) (cd_text cd) (sd_extract sd)));
    [discriminate|].
  destruct (linked_titles_of (cd_links cd)) as [ts|] eqn:Hl; [|discriminate].
  injection Hf as <-. simpl. exists cd. split; [reflexivity|].
  now apply linked_titles_of_spec.
Qed.

Lemma fetch_article_links_witness :
  exists cd,
    example_get_content example_title = Resp 200 cd /\
    map Some (links (example_fetched example_title))
    = map link_star
        (List.filter (fun l => bool_decide (link_ns l = Some 0%Z)) (cd_links cd)).
Proof.
  apply (fetch_article_links ascii_lower (fun html => html)
           example_get_summary example_get_content ∅ example_title
           (example_fetched example_title)).
  vm_compute. reflexivity.
Defined.

(** Of the eleven links of the example page the worker offers the first ten:
    the eleventh, "K", never reaches the queue. *)
Example offer_links_first_ten :
  offer_links ∅ [] (links (example_fetched example_title))
  = map (fun n => [n]) [65; 66; 67; 68; 69; 70; 71; 72; 73; 74]%N.
Proof. vm_compute. reflexivity. Qed.

(** C8, as stated, fails: a page with eleven main-namespace links is fetched
    with all eleven in its [links]; the other namespaces are left out. *)
Lemma fetch_article_returns_eleven_links :
  example_fetch ∅ example_title = Some (example_fetched example_title) /\
  length (links (example_fetched example_title)) = 11 /\
  length (List.filter (fun l => bool_decide (link_ns l = Some 0%Z)) example_links)
  = 11.
Proof. split; [vm_compute; reflexivity|]. split; reflexivity. Qed.

(** ** Deduplication across workers *)

(** C9 at the failing input: the title is listed by several seed
    categories, so [populate_initial_queue] queues it more than once, and
    two workers each pop a copy before either marks it visited.  Both pass
    the visited test and both issue the requests. *)
Theorem worker_pool_fetches_twice :
  exists s,
    run_schedule example_fetch [0; 1; 0; 1; 0; 1] example_pool = Some s /\
    occurrences example_title (requested s) = 2.
Proof. eexists. split; [vm_compute; reflexivity|]. vm_compute. reflexivity. Qed.

Lemma visited_record_result {K : Collation} (current : str) (r : option article)
    (c : crawler) :
  visited (record_result current r c) = {[current]} ∪ visited c.
Proof.
  unfold record_result. destruct r as [a|]; [|reflexivity].
  now destruct (BATCH_SIZE <=? _)%Z.
Qed.

Lemma step_lone_worker_inv {K : Collation} (fetch : gset str -> str -> option article)
    (tid : nat) (s s' : pool) :
  lone_worker_inv s -> step fetch tid s = Some s' -> lone_worker_inv s'.
Proof.
  intros [p [Hw [Hnd Hreq]]]. unfold step. rewrite Hw.
  destruct tid as [|tid]; [|discriminate]. cbn [lookup list_lookup].
  destruct p as [|cur|cur|cur r|].
  - destruct (MAX_ARTICLES <=? _)%Z; [|destruct (queue (shared s))];
      intros [= <-]; eexists; (split; [reflexivity|]); (split; [exact Hnd|]);
      intros t Ht; left; destruct (Hreq t Ht) as [H|[r H]]; auto; discriminate.
  - destruct (decide (cur ∈ visited (shared s)));
      intros [= <-]; eexists; (split; [reflexivity|]); (split; [exact Hnd|]);
      intros t Ht; left; destruct (Hreq t Ht) as [H|[r H]]; auto; discriminate.
  - assert (Hall : forall t, In t (requested s) -> t ∈ visited (shared s)).
    { intros t Ht. destruct (Hreq t Ht) as [H|[r H]]; [exact H|discriminate]. }
    destruct (decide (cur ∈ visited (shared s))) as [Hin|Hout];
      intros [= <-]; eexists; (split; [reflexivity|]); cbn [requested shared].
    + split; [exact Hnd|]. intros t Ht. left. now apply Hall.
    + split.
      * apply NoDup_app. split; [exact Hnd|]. split; [|apply NoDup_singleton].
        intros t Ht Hc. apply list_elem_of_In in Ht, Hc.
        destruct Hc as [<-|[]]. apply Hout. now apply Hall.
      * intros t Ht. apply in_app_or in Ht as [Ht|[<-|[]]]; [left; now apply Hall|].
        right. eauto.
  - intros [= <-]. eexists. split; [reflexivity|]. cbn [requested shared].
    split; [exact Hnd|]. intros t Ht. left. rewrite visited_record_result.
    destruct (Hreq t Ht) as [H|[r' H]]; [set_solver|].
    injection H as <- _. set_solver.
  - discriminate.
Qed.

(** X26. With a single worker the loop does deduplicate: whatever the queue
    holds and whatever the fetcher returns, no title is requested twice.
    The double fetch needs two workers. *)
Lemma single_worker_requests_once {K : Collation}
    (fetch : gset str -> str -> option article)
    (sched : list nat) (c : crawler) (s' : pool) :
  run_schedule fetch sched
    {| shared := c; workers := [AtLoopTop]; requested := [] |} = Some s' ->
  NoDup (requested s').
Proof.
  intros Hrun.
  assert (Hinv : lone_worker_inv
                   {| shared := c; workers := [AtLoopTop]; requested := [] |}).
  { exists AtLoopTop. split; [reflexivity|]. split; [constructor|intros t []]. }
  revert Hrun Hinv. generalize {| shared := c; workers := [AtLoopTop]; requested := [] |}.
  induction sched as [|tid sched IH]; intros s Hrun Hinv; simpl in Hrun.
  - injection Hrun as <-. destruct Hinv as [p [_ [Hnd _]]]. exact Hnd.
  - destruct (step fetch tid s) as [s1|] eqn:Hstep; [|discriminate].
    apply (IH s1 Hrun). eapply step_lone_worker_inv; eassumption.
Qed.

(** The atomic steps of a lone worker add up to one pass of its loop. *)
Lemma lone_worker_pass {K : Collation} (fetch : gset str -> str -> option article)
    (c : crawler) (req : list str) :
  match worker_iteration fetch c with
  | None =>
      step fetch 0 {| shared := c; workers := [AtLoopTop]; requested := req |}
      = Some {| shared := c; workers := [Finished]; requested := req |}
  | Some c' =>
      exists sched req',
        run_schedule fetch sched
          {| shared := c; workers := [AtLoopTop]; requested := req |}
        = Some {| shared := c'; workers := [AtLoopTop]; requested := req' |}
  end.
Proof.
  unfold worker_iteration.
  destruct (MAX_ARTICLES <=? Z.of_nat (size (visited c)))%Z eqn:Hmax.
  { unfold step. cbn. now rewrite Hmax. }
  destruct (queue c) as [|current rest] eqn:Hq.
  { unfold step. cbn. now rewrite Hmax, Hq. }
  destruct (decide (current ∈ visited c)) as [Hin|Hout].
  - exists [0; 0], req. unfold run_schedule, step. cbn. rewrite Hmax, Hq. cbn.
    destruct (decide (current ∈ visited c)); [reflexivity|contradiction].
  - exists [0; 0; 0; 0], (req ++ [current]). unfold run_schedule, step. cbn.
    rewrite Hmax, Hq. cbn.
    destruct (decide (current ∈ visited c)); [contradiction|]. cbn.
    destruct (decide (current ∈ visited c)); [contradiction|]. cbn.
    reflexivity.
Qed.

(* ===================================================================== *)
(** * Further properties of the code *)
(* ===================================================================== *)

(** ** Shape of a cleaned text *)

Lemma join_head_last (toks : list str) :
  Forall token toks ->
  (forall s', join [SP] toks <> SP :: s') /\
  (forall s', join [SP] toks <> s' ++ [SP]).
Proof.
  induction 1 as [|t ts [Hne Hns] Hts [IH1 IH2]]; [split; intros [|? ?]; discriminate|].
  assert (Hsp : is_space SP = true) by reflexivity.
  split.
  - intros s' Heq. destruct t as [|c t]; [congruence|].
    inversion Hns as [|? ? Hc _]; subst.
    destruct ts; simpl in Heq; injection Heq as -> _; congruence.
  - intros s' Heq. destruct ts as [|t2 ts'].
    + simpl in Heq. subst t. apply Forall_app in Hns as [_ Hsp'].
      inversion Hsp'; congruence.
    + change (join [SP] (t :: t2 :: ts')) with (t ++ SP :: join [SP] (t2 :: ts')) in Heq.
      assert (Hj : join [SP] (t2 :: ts') <> []).
      { inversion Hts as [|? ? [Hne2 _] _]; subst.
        destruct t2; [congruence|]. destruct ts'; discriminate. }
      destruct (exists_last Hj) as [r [x Ej]]. rewrite Ej in Heq.
      change (t ++ SP :: r ++ [x]) with (t ++ (SP :: r) ++ [x]) in Heq.
      rewrite app_assoc in Heq.
      apply app_inj_tail in Heq as [_ ->]. now apply (IH2 r).
Qed.

Lemma contains_cons (pat : str) (c : cp) (s : str) :
  contains pat (c :: s) = startswith pat (c :: s) || contains pat s.
Proof. reflexivity. Qed.

Lemma contains_double_space_token (t rest : str) :
  Forall (fun c => is_space c = false) t ->
  contains [SP; SP] (t ++ rest) = contains [SP; SP] rest.
Proof.
  induction 1 as [|c t Hc Ht IH]; [reflexivity|].
  change ((c :: t) ++ rest) with (c :: (t ++ rest)). rewrite contains_cons.
  transitivity (false || contains [SP; SP] (t ++ rest)); [|exact IH].
  f_equal. cbn [startswith].
  destruct (N.eqb_spec SP c) as [<-|_]; [discriminate|reflexivity].
Qed.

Lemma join_no_double_space (toks : list str) :
  Forall token toks -> contains [SP; SP] (join [SP] toks) = false.
Proof.
  induction 1 as [|t ts [Hne Hns] Hts IH]; [reflexivity|].
  destruct ts as [|t2 ts'].
  - simpl. rewrite <- (app_nil_r t). now rewrite contains_double_space_token.
  - change (join [SP] (t :: t2 :: ts')) with (t ++ SP :: join [SP] (t2 :: ts')).
    rewrite contains_double_space_token by exact Hns.
    rewrite contains_cons, IH, orb_false_r.
    destruct (join_head_last (t2 :: ts') Hts) as [Hhead _].
    destruct (join [SP] (t2 :: ts')) as [|x r]; [reflexivity|].
    cbn [startswith]. destruct (N.eqb_spec SP x) as [<-|_].
    + now specialize (Hhead r).
    + now rewrite andb_false_r.
Qed.

(** X1. Whatever the text, [preprocess_text] yields lower-case ASCII
    letters, digits and spaces only, with no space at either end and no two
    spaces in a row. *)
Theorem preprocess_text_shape (lower : str -> str) `{!Lower lower} (text : str) :
  Forall plain (preprocess_text lower text) /\
  (forall s', preprocess_text lower text <> SP :: s') /\
  (forall s', preprocess_text lower text <> s' ++ [SP]) /\
  contains [SP; SP] (preprocess_text lower text) = false.
Proof.
  destruct text as [|c text].
  { repeat split; try constructor; intros [|? ?]; discriminate. }
  unfold preprocess_text.
  destruct (squeeze_strip_plain lower (c :: text)) as [toks [-> [Htok Hplain]]].
  split; [apply join_chars; [reflexivity|exact Hplain]|].
  destruct (join_head_last toks Htok) as [H1 H2].
  repeat split; [exact H1|exact H2|now apply join_no_double_space].
Qed.

Lemma preprocess_text_shape_witness :
  Forall plain (preprocess_text ascii_lower (lit "  Hello,  World!! C++ ")).
Proof. apply (preprocess_text_shape ascii_lower). Defined.

(** ** Documents of the index *)

Lemma split_nonempty (c : cp) (s : str) : is_space c = false -> split (c :: s) <> [].
Proof.
  intros Hc. cbn [split]. rewrite Hc. destruct s as [|d s]; [discriminate|].
  destruct (is_space d); [discriminate|]. now destruct (split (d :: s)).
Qed.

Lemma split_app_space (a b : str) : split (a ++ SP :: b) = split a ++ split b.
Proof.
  induction a as [|c a IH]; [reflexivity|].
  change ((c :: a) ++ SP :: b) with (c :: (a ++ SP :: b)).
  cbn [split]. destruct (is_space c) eqn:Hc; [exact IH|].
  destruct a as [|d a'].
  - reflexivity.
  - change ((d :: a') ++ SP :: b) with (d :: (a' ++ SP :: b)) in *.
    cbv iota. destruct (is_space d) eqn:Hd.
    + now rewrite IH.
    + rewrite IH. pose proof (split_nonempty d a' Hd) as Hne.
      destruct (split (d :: a')) as [|t ts] eqn:E; [exact (match Hne E with end)|].
      reflexivity.
Qed.

Lemma strip_special_app_space (a b : str) :
  strip_special (a ++ SP :: b) = strip_special a ++ SP :: strip_special b.
Proof. unfold strip_special. now rewrite map_app. Qed.

#[export] Instance ascii_lower_LowerSpaced : LowerSpaced ascii_lower.
Proof. intros a b. unfold ascii_lower. now rewrite map_app. Qed.

(** X2. The document built for an article is made of the words of its
    title three times over, then the words of its summary, then those of its
    content, joined by single spaces: a title word counts three times in the
    term frequencies. *)
Theorem document_text_words (lower : str -> str) `{!LowerSpaced lower}
    (title summary content : str) :
  document_text lower title summary content
  = join [SP] (words lower title ++ words lower title ++ words lower title
               ++ words lower summary ++ words lower content).
Proof.
  unfold document_text, preprocess_text, squeeze, words.
  destruct (title ++ SP :: title ++ SP :: title ++ SP :: summary ++ SP :: content)
    as [|c r] eqn:E; [destruct title; discriminate|].
  rewrite <- E. clear E.
  repeat (rewrite (lower_spaced _ _), strip_special_app_space, split_app_space).
  reflexivity.
Qed.

Lemma document_text_words_witness :
  document_text ascii_lower (lit "Alan Turing") (lit "A man.") (lit "Logic & math")
  = join [SP] (words ascii_lower (lit "Alan Turing")
               ++ words ascii_lower (lit "Alan Turing")
               ++ words ascii_lower (lit "Alan Turing")
               ++ words ascii_lower (lit "A man.")
               ++ words ascii_lower (lit "Logic & math")).
Proof. apply (document_text_words ascii_lower). Defined.

(** ** The cleaned page text *)

Lemma collapse_spaces_only_sp (s : str) :
  Forall (fun c => is_space c = true -> c = SP) (collapse_spaces s).
Proof.
  induction s as [|c s IH]; [constructor|].
  cbn [collapse_spaces]. destruct (is_space c) eqn:Hc.
  - destruct s as [|d s']; [repeat constructor|].
    destruct (is_space d); [exact IH|]. constructor; [reflexivity|exact IH].
  - constructor; [congruence|exact IH].
Qed.

Lemma lstrip_In (s : str) (c : cp) : In c (lstrip s) -> In c s.
Proof.
  induction s as [|d s IH]; [tauto|]. cbn [lstrip].
  destruct (is_space d); [intros H; right; now apply IH|tauto].
Qed.

Lemma strip_In (s : str) (c : cp) : In c (strip s) -> In c s.
Proof.
  unfold strip. intros H. apply in_rev, lstrip_In, in_rev in H.
  now apply lstrip_In.
Qed.

(** What the scan for bracketed spans keeps was in the text; on a text
    without line feed, what it returns holds no bracket pair. *)
Lemma refs_scan_In (s : str) (x : cp) :
  (In x (fst (refs_scan s)) -> In x s) /\
  (forall after, snd (refs_scan s) = Some after -> In x after -> In x s).
Proof.
  induction s as [|c s [IH1 IH2]]; [split; [tauto|discriminate]|].
  cbn [refs_scan]. destruct (refs_scan s) as [removed after_close].
  cbn [fst snd] in *. split.
  - destruct (c =? 91)%N.
    + destruct after_close as [after|].
      * intros H. right. now apply (IH2 after).
      * intros [<-|H]; [now left|right; now apply IH1].
    + intros [<-|H]; [now left|right; now apply IH1].
  - intros after Hk Hin. right.
    destruct (c =? 93)%N; [injection Hk as <-; now apply IH1|].
    destruct (c =? 10)%N; [discriminate|]. now apply (IH2 after).
Qed.

Lemma remove_refs_In (s : str) (x : cp) : In x (remove_refs s) -> In x s.
Proof. exact (proj1 (refs_scan_In s x)). Qed.

Lemma refs_scan_no_ref (s : str) :
  ~ In 10%N s ->
  no_ref (fst (refs_scan s)) /\
  match snd (refs_scan s) with
  | Some after => no_ref after
  | None => ~ In 93%N s
  end.
Proof.
  induction s as [|c s IH]; [intros _; split; [exact I|intros []]|].
  intros Hnl. assert (Hc : c <> 10%N) by (intros ->; apply Hnl; now left).
  destruct IH as [IH1 IH2]; [intros H; apply Hnl; now right|].
  pose proof (fun x => proj1 (refs_scan_In s x)) as Hsub.
  cbn [refs_scan]. destruct (refs_scan s) as [removed after_close].
  cbn [fst snd] in *.
  destruct (N.eqb_spec c 91) as [->|H91].
  - cbn. destruct after_close as [after|]; [now split|].
    split; [|intros [H|H]; [discriminate|contradiction]].
    split; [|exact IH1]. intros _ H. apply IH2. now apply Hsub.
  - destruct (N.eqb_spec c 93) as [->|H93].
    + split; [|exact IH1]. split; [congruence|exact IH1].
    + destruct (N.eqb_spec c 10) as [->|_]; [congruence|].
      split; [split; [congruence|exact IH1]|].
      destruct after_close; [exact IH2|]. intros [H|H]; [congruence|contradiction].
Qed.

Lemma no_ref_filter (f : cp -> bool) (s : str) : no_ref s -> no_ref (List.filter f s).
Proof.
  induction s as [|c s IH]; [tauto|]. intros [Hc Hs]. cbn [List.filter].
  destruct (f c); [|now apply IH]. split; [|now apply IH].
  intros E H. apply filter_In in H as [H _]. now apply Hc.
Qed.

Lemma no_ref_spec (s a b c : str) : no_ref s -> s <> a ++ 91%N :: b ++ 93%N :: c.
Proof.
  intros Hs ->. induction a as [|x a IH]; cbn in Hs.
  - destruct Hs as [Hs _]. apply Hs; [reflexivity|]. apply in_app_iff. right. now left.
  - now apply IH.
Qed.

Lemma low_code_point (c : cp) :
  (c < 32)%N -> is_control c = true \/ (is_space c = true /\ c <> SP).
Proof.
  intros H. destruct c as [|p]; [now left|].
  do 5 (try (destruct p as [p|p|]; try lia));
    (left; reflexivity) || (right; split; [reflexivity|discriminate]).
Qed.

Lemma clean_html_content_In (get_text : str -> option str) (html : str) (c : cp) :
  In c (clean_html_content get_text html) ->
  is_control c = false /\ (is_space c = true -> c = SP).
Proof.
  unfold clean_html_content. destruct html as [|h html]; [intros []|].
  destruct (get_text (h :: html)) as [text|]; [|intros []].
  intros H. apply filter_In in H as [H Hctl]. apply negb_true_iff in Hctl.
  split; [exact Hctl|].
  apply filter_In in H as [H _]. apply remove_refs_In, strip_In in H.
  pose proof (collapse_spaces_only_sp text) as Hsp.
  rewrite List.Forall_forall in Hsp. now apply Hsp.
Qed.

(** X3. The text [clean_html_content] returns holds no ASCII control
    character, tab and line breaks included, and no whitespace other than
    the plain space, whatever the parser extracted. *)
Theorem clean_html_content_chars (get_text : str -> option str) (html : str) :
  Forall (fun c => (32 <= c)%N /\ c <> 127%N /\ (is_space c = true -> c = SP))
    (clean_html_content get_text html).
Proof.
  rewrite List.Forall_forall. intros c Hc.
  destruct (clean_html_content_In get_text html c Hc) as [Hctl Hsp].
  repeat split; [| |exact Hsp].
  - destruct (N.le_gt_cases 32 c) as [H|H]; [exact H|].
    destruct (low_code_point c H) as [E|[E1 E2]]; [congruence|].
    now specialize (Hsp E1).
  - intros ->. discriminate.
Qed.

(** X4. No bracketed span is left in the text [clean_html_content]
    returns: no opening bracket stands anywhere before a closing one. *)
Theorem clean_html_content_no_brackets (get_text : str -> option str)
    (html a b c : str) :
  clean_html_content get_text html <> a ++ 91%N :: b ++ 93%N :: c.
Proof.
  apply no_ref_spec. unfold clean_html_content.
  destruct html as [|h html]; [exact I|].
  destruct (get_text (h :: html)) as [text|]; [|exact I].
  do 2 apply no_ref_filter. apply refs_scan_no_ref.
  intros H. apply strip_In in H.
  pose proof (collapse_spaces_only_sp text) as Hsp.
  rewrite List.Forall_forall in Hsp. specialize (Hsp _ H eq_refl). discriminate.
Qed.

(** The text is not squeezed again after the spans are removed: two spaces
    can meet where a reference stood. *)
Example clean_html_content_double_space :
  clean_html_content (fun h => Some h) (lit "Alan [1] Turing") = lit "Alan  Turing".
Proof. reflexivity. Qed.

(** ** Category members *)

Section CategoryMembersFacts.

Variable get_members_page : str -> option str -> response members_page.

Lemma category_pages_enough_fuel (category : str) :
  (forall tok st page, get_members_page category tok = Resp st page ->
                       page_continue page <> None -> page_members page <> []) ->
  forall fuel members tok,
    500 <= length members + fuel ->
    category_pages get_members_page fuel category members tok <> None.
Proof.
  intros Hpages. induction fuel as [|fuel IH]; intros members tok Hlen;
    cbn [category_pages]; destruct (Nat.leb_spec 500 (length members)); try discriminate.
  - lia.
  - destruct (get_members_page category tok) as [st page|] eqn:Hget; [|discriminate].
    destruct (negb (st =? 200)%Z); [discriminate|].
    destruct (page_continue page) as [[|c token]|] eqn:Hcont; try discriminate.
    apply IH. rewrite length_app.
    assert (Hne : page_members page <> [])
      by (apply (Hpages tok st page Hget); congruence).
    destruct (page_members page); [congruence|]. simpl. lia.
Qed.

Lemma category_pages_bound (category : str) (k : nat) :
  (forall tok st page, get_members_page category tok = Resp st page ->
                       length (page_members page) <= k) ->
  forall fuel members tok result,
    length members < 500 + k ->
    category_pages get_members_page fuel category members tok = Some result ->
    length result < 500 + k.
Proof.
  intros Hpages. induction fuel as [|fuel IH]; intros members tok result Hlen;
    cbn [category_pages]; destruct (Nat.leb_spec 500 (length members)).
  - now intros [= <-].
  - discriminate.
  - now intros [= <-].
  - destruct (get_members_page category tok) as [st page|] eqn:Hget;
      [|intros [= <-]; simpl; lia].
    destruct (negb (st =? 200)%Z); [now intros [= <-]|].
    assert (Hnew : length (members ++ page_members page) < 500 + k).
    { rewrite length_app. specialize (Hpages tok st page Hget). lia. }
    destruct (page_continue page) as [[|c token]|]; try (now intros [= <-]).
    now apply IH.
Qed.

Lemma category_pages_step (fuel : nat) (category : str) (members : list (str * Z))
    (tok : option str) :
  length members < 500 ->
  category_pages get_members_page (S fuel) category members tok
  = match get_members_page category tok with
    | RequestFails => Some []
    | Resp status_code page =>
        if negb (status_code =? 200)%Z then Some members
        else
          match page_continue page with
          | Some (c :: token) =>
              category_pages get_members_page fuel category
                (members ++ page_members page) (Some (c :: token))
          | _ => Some (members ++ page_members page)
          end
    end.
Proof.
  intros Hlen. cbn [category_pages].
  destruct (Nat.leb_spec 500 (length members)); [lia|reflexivity].
Qed.

End CategoryMembersFacts.

(** X5. When every page that carries a continuation token also carries at
    least one member, [fetch_category_members] is done after at most 500
    requests: the loop needs no more fuel than that, whatever the pages and
    the failures. *)
Theorem fetch_category_members_terminates
    (get_members_page : str -> option str -> response members_page)
    (category : str) :
  (forall tok st page, get_members_page category tok = Resp st page ->
                       page_continue page <> None -> page_members page <> []) ->
  exists members,
    fetch_category_members get_members_page 500 category = Some members.
Proof.
  intros Hpages. unfold fetch_category_members.
  pose proof (category_pages_enough_fuel get_members_page category Hpages
                500 [] None ltac:(simpl; lia)) as H.
  destruct (category_pages get_members_page 500 category [] None) as [ms|];
    [now exists ms|congruence].
Qed.

(** X6. When every page that carries a continuation token also carries at
    least one member and no page holds more than [k] members,
    [fetch_category_members] returns, within 500 requests, fewer than
    500 + [k] members: the loop stops once 500 are gathered but keeps the
    whole of the page that crosses the mark, so with pages of at most 500
    members up to 999 can be returned. *)
Theorem fetch_category_members_bound
    (get_members_page : str -> option str -> response members_page)
    (category : str) (k : nat) :
  (forall tok st page, get_members_page category tok = Resp st page ->
                       page_continue page <> None -> page_members page <> []) ->
  (forall tok st page, get_members_page category tok = Resp st page ->
                       length (page_members page) <= k) ->
  exists members,
    fetch_category_members get_members_page 500 category = Some members /\
    length members < 500 + k.
Proof.
  intros Hprogress Hpages. unfold fetch_category_members.
  pose proof (category_pages_enough_fuel get_members_page category Hprogress
                500 [] None ltac:(simpl; lia)) as Hsome.
  destruct (category_pages get_members_page 500 category [] None) as [ms|] eqn:E;
    [|congruence].
  exists ms. split; [reflexivity|].
  apply (category_pages_bound get_members_page category k Hpages 500 [] None ms);
    [simpl; lia|exact E].
Qed.

(** X7. A failure on the second page is told apart by its kind: when the
    request raises, the members of the first page are lost and the empty
    list is returned; when it answers with a status other than 200, the
    members of the first page are returned. *)
Theorem fetch_category_members_second_page
    (get_members_page : str -> option str -> response members_page)
    (category : str) (fuel : nat) (first : members_page) (c : N) (token : str) :
  get_members_page category None = Resp 200 first ->
  page_continue first = Some (c :: token) ->
  length (page_members first) < 500 ->
  (get_members_page category (Some (c :: token)) = RequestFails ->
   fetch_category_members get_members_page (S (S fuel)) category = Some []) /\
  (forall st page,
     get_members_page category (Some (c :: token)) = Resp st page ->
     st <> 200%Z ->
     fetch_category_members get_members_page (S (S fuel)) category
     = Some (page_members first)).
Proof.
  intros Hfirst Hcont Hlen. unfold fetch_category_members.
  rewrite category_pages_step by (simpl; lia).
  rewrite Hfirst, Hcont. cbn [Z.eqb Pos.eqb negb app].
  rewrite category_pages_step by exact Hlen.
  split.
  - now intros ->.
  - intros st page -> Hst. now destruct (Z.eqb_spec st 200).
Qed.

Lemma fetch_category_members_terminates_witness :
  exists members,
    fetch_category_members example_pages 500 (lit "Category:Science") = Some members.
Proof.
  apply (fetch_category_members_terminates example_pages (lit "Category:Science")).
  intros [t|] st page [= <- <-]; simpl; congruence.
Defined.

Lemma fetch_category_members_bound_witness :
  exists members,
    fetch_category_members example_pages 500 (lit "Category:Science") = Some members /\
    length members < 500 + 2.
Proof.
  apply (fetch_category_members_bound example_pages (lit "Category:Science") 2).
  - intros [t|] st page [= <- <-]; simpl; congruence.
  - intros [t|] st page [= <- <-]; simpl; lia.
Defined.

(** A category whose pages are empty and always name a next page: the loop
    never ends, whatever the number of requests allowed. *)
Example fetch_category_members_endless :
  fetch_category_members
    (fun _ _ => Resp 200 {| page_members := []; page_continue := Some (lit "next") |})
    500 (lit "Category:Science") = None.
Proof. vm_compute. reflexivity. Qed.

Lemma fetch_category_members_second_page_witness :
  fetch_category_members example_pages_failing 2 (lit "Category:Science") = Some [].
Proof.
  apply (fetch_category_members_second_page example_pages_failing
           (lit "Category:Science") 0 example_first_page 112%N (lit "age|2")).
  - reflexivity.
  - reflexivity.
  - simpl. lia.
  - reflexivity.
Defined.

(** ** The table under batch writes *)

Section BatchWrites.

Context {K : Collation}.

Lemma has_title_spec (t : str) (rs : list stored) :
  has_title t rs = true <-> exists r, In r rs /\ same_key (st_title r) t = true.
Proof. unfold has_title. apply existsb_exists. Qed.

Lemma has_title_In (r : stored) (rs : list stored) :
  In r rs -> has_title (st_title r) rs = true.
Proof.
  intros Hr. apply has_title_spec. exists r. split; [exact Hr|apply same_key_refl].
Qed.

Lemma has_title_app (t : str) (rs new : list stored) :
  has_title t rs = true -> has_title t (rs ++ new) = true.
Proof.
  rewrite !has_title_spec. intros [r [Hr Hk]]. exists r.
  split; [apply in_app_iff; now left|exact Hk].
Qed.

Lemma has_title_same_key (t u : str) (rs : list stored) :
  same_key t u = true -> has_title t rs = true -> has_title u rs = true.
Proof.
  rewrite !has_title_spec. intros Htu [r [Hr Hk]]. exists r.
  split; [exact Hr|]. now apply (same_key_trans _ t).
Qed.

Lemma insert_ignore_cases (rs : list stored) (v : stored) :
  (has_title (st_title v) rs = true /\ insert_ignore rs v = rs) \/
  (has_title (st_title v) rs = false /\ insert_ignore rs v = rs ++ [v]).
Proof.
  unfold insert_ignore. destruct (has_title (st_title v) rs); [left|right]; now split.
Qed.

Lemma insert_all_spec (vs : list stored) (rs : list stored) :
  exists new,
    fold_left insert_ignore vs rs = rs ++ new /\
    Forall (fun r => In r vs) new /\
    (NoDup (map st_title rs) ->
     NoDup (map st_title (fold_left insert_ignore vs rs))) /\
    Forall (fun v => has_title (st_title v) (fold_left insert_ignore vs rs) = true) vs.
Proof.
  revert rs. induction vs as [|v vs IH]; intros rs.
  - exists []. rewrite app_nil_r. repeat split; auto.
  - cbn [fold_left]. destruct (IH (insert_ignore rs v)) as [new [Heq [Hnew [Hnd Hall]]]].
    assert (Hmono : has_title (st_title v)
                      (fold_left insert_ignore vs (insert_ignore rs v)) = true).
    { rewrite Heq. apply has_title_app.
      destruct (insert_ignore_cases rs v) as [[Hv ->]|[_ ->]]; [exact Hv|].
      apply has_title_In. apply in_app_iff. right. now left. }
    destruct (insert_ignore_cases rs v) as [[Hin E]|[Hout E]]; rewrite E in *.
    + exists new. repeat split; auto.
      eapply List.Forall_impl; [|exact Hnew]. intros r Hr. now right.
    + exists (v :: new). rewrite <- app_assoc in Heq. repeat split; auto.
      * constructor; [now left|].
        eapply List.Forall_impl; [|exact Hnew]. intros r Hr. now right.
      * intros Hrs. apply Hnd. rewrite map_app. apply NoDup_app. repeat split; auto.
        -- intros t Ht Hc. apply list_elem_of_In in Ht, Hc.
           destruct Hc as [<-|[]]. apply in_map_iff in Ht as [r [Hr1 Hr2]].
           pose proof (has_title_In r rs Hr2) as Hr. rewrite Hr1 in Hr. congruence.
        -- apply NoDup_singleton.
Qed.

Lemma insert_all_present (vs : list stored) (rs : list stored) :
  Forall (fun v => has_title (st_title v) rs = true) vs ->
  fold_left insert_ignore vs rs = rs.
Proof.
  induction 1 as [|v vs Hv Hvs IH]; [reflexivity|]. cbn [fold_left].
  destruct (insert_ignore_cases rs v) as [[_ ->]|[Hout _]]; [exact IH|congruence].
Qed.

Lemma batch_insert_articles_stores_aux (articles : list article) (d : database) :
  hd false (faults d) = false ->
  Forall (fun a => has_title (firstn 255 (title a))
                     (rows (batch_insert_articles articles d)) = true) articles.
Proof.
  intros Hok. unfold batch_insert_articles.
  destruct articles as [|a rest]; [constructor|].
  destruct (insert_all_spec (map sanitize (a :: rest)) (rows d))
    as [new [_ [_ [_ Hall]]]].
  assert (Hgoal : Forall (fun a0 => has_title (firstn 255 (title a0))
                    (fold_left insert_ignore (map sanitize (a :: rest)) (rows d))
                  = true) (a :: rest)).
  { rewrite List.Forall_forall in *. intros a0 Ha0.
    apply (Hall (sanitize a0)). now apply in_map. }
  destruct (faults d) as [|[|] later]; [exact Hgoal|discriminate|exact Hgoal].
Qed.

End BatchWrites.

(** X8. The table never holds two rows with the same title: if the titles
    are distinct before a batch write, they are distinct after it, whatever
    the batch holds, however the key compares titles and whether or not the
    write fails. *)
Theorem batch_insert_articles_unique_titles {K : Collation} (articles : list article)
    (d : database) :
  NoDup (map st_title (rows d)) ->
  NoDup (map st_title (rows (batch_insert_articles articles d))).
Proof.
  intros Hnd. unfold batch_insert_articles.
  destruct articles as [|a rest]; [exact Hnd|].
  destruct (faults d) as [|[|] later]; cbn [rows]; try exact Hnd;
    destruct (insert_all_spec (map sanitize (a :: rest)) (rows d))
      as [new [_ [_ [Hkeep _]]]]; now apply Hkeep.
Qed.

(** X9. A batch write never removes or changes a row: the table after it is
    the table before it followed by new rows, each built from an article of
    the batch. *)
Theorem batch_insert_articles_appends {K : Collation} (articles : list article)
    (d : database) :
  exists new,
    rows (batch_insert_articles articles d) = rows d ++ new /\
    Forall (fun r => exists a, In a articles /\ r = sanitize a) new.
Proof.
  unfold batch_insert_articles.
  destruct articles as [|a rest]; [exists []; now rewrite app_nil_r|].
  assert (Hfail : exists new : list stored,
             rows d = rows d ++ new /\
             Forall (fun r => exists a0, In a0 (a :: rest) /\ r = sanitize a0) new)
    by (exists []; now rewrite app_nil_r).
  destruct (faults d) as [|[|] later]; cbn [rows]; try exact Hfail;
    destruct (insert_all_spec (map sanitize (a :: rest)) (rows d))
      as [new [Heq [Hnew _]]]; exists new; (split; [exact Heq|]);
    (eapply List.Forall_impl; [|exact Hnew]); intros r Hr;
    apply in_map_iff in Hr as [a0 [<- Ha0]]; eauto.
Qed.

(** X10. After a batch write that does not fail, the table holds, for every
    article of the batch, a row whose title equals under the key the
    article's title cut at 255 code points: the article's own row, or the
    row in whose favour [INSERT IGNORE] dropped it. *)
Theorem batch_insert_articles_stores {K : Collation} (articles : list article)
    (d : database) :
  hd false (faults d) = false ->
  Forall (fun a => has_title (firstn 255 (title a))
                     (rows (batch_insert_articles articles d)) = true) articles.
Proof. apply batch_insert_articles_stores_aux. Qed.

(** X11. Ingestion is idempotent: writing the same batch a second time,
    after a first write that did not fail, leaves the rows of the table as
    they are. *)
Theorem batch_insert_articles_idempotent {K : Collation} (articles : list article)
    (d : database) :
  hd false (faults d) = false ->
  rows (batch_insert_articles articles (batch_insert_articles articles d))
  = rows (batch_insert_articles articles d).
Proof.
  intros Hok. pose proof (batch_insert_articles_stores_aux articles d Hok) as Hall.
  set (d1 := batch_insert_articles articles d) in *.
  unfold batch_insert_articles at 1.
  destruct articles as [|a rest]; [reflexivity|].
  destruct (faults d1) as [|[|] later]; cbn [rows]; try reflexivity;
    apply insert_all_present; rewrite List.Forall_forall in *;
    intros v Hv; apply in_map_iff in Hv as [a0 [<- Ha0]];
    exact (Hall a0 Ha0).
Qed.

Lemma batch_insert_articles_unique_titles_witness :
  NoDup (map st_title
           (rows (batch_insert_articles [example_article; example_article]
                    (empty_database [])))).
Proof.
  apply (batch_insert_articles_unique_titles [example_article; example_article]
           (empty_database [])).
  constructor.
Defined.

Lemma batch_insert_articles_stores_witness :
  Forall (fun a => has_title (firstn 255 (title a))
                     (rows (batch_insert_articles [example_article]
                              (empty_database [false; true]))) = true)
    [example_article].
Proof.
  apply (batch_insert_articles_stores [example_article] (empty_database [false; true])).
  reflexivity.
Defined.

Lemma batch_insert_articles_idempotent_witness :
  rows (batch_insert_articles [example_article; example_article]
          (batch_insert_articles [example_article; example_article]
             (empty_database [])))
  = rows (batch_insert_articles [example_article; example_article]
            (empty_database [])).
Proof.
  apply (batch_insert_articles_idempotent [example_article; example_article]
           (empty_database [])).
  reflexivity.
Defined.

(** ** The worker loop run alone *)

Lemma offer_link_length (seen : gset str) (q : list str) (l : str) :
  (Z.of_nat (length (offer_link seen q l))
   <= Z.max (Z.of_nat (length q)) QUEUE_LIMIT)%Z.
Proof.
  destruct (offer_link_cases seen q l) as [[_ ->]|[[_ H] ->]]; [lia|].
  rewrite length_app. simpl. lia.
Qed.

Lemma offer_links_bounded (seen : gset str) (q : list str) (ls : list str) :
  (Z.of_nat (length q) <= QUEUE_LIMIT)%Z ->
  (Z.of_nat (length (offer_links seen q ls)) <= QUEUE_LIMIT)%Z.
Proof.
  unfold offer_links. generalize (firstn LINKS_PER_ARTICLE ls) as k.
  intros k. revert q. induction k as [|l k IH]; intros q Hq; [exact Hq|].
  cbn [fold_left]. apply IH. pose proof (offer_link_length seen q l). lia.
Qed.

(** What one pass keeps: the bound on the queue and the room left in the
    batch buffer. *)
Lemma record_result_bounds {K : Collation} (current : str) (r : option article)
    (c : crawler) :
  (Z.of_nat (length (queue c)) <= QUEUE_LIMIT)%Z ->
  (Z.of_nat (length (article_batch c)) < BATCH_SIZE)%Z ->
  (Z.of_nat (length (queue (record_result current r c))) <= QUEUE_LIMIT)%Z /\
  (Z.of_nat (length (article_batch (record_result current r c))) < BATCH_SIZE)%Z.
Proof.
  intros Hq Hb. unfold record_result. destruct r as [a|]; [|now split].
  destruct (Z.leb_spec BATCH_SIZE (Z.of_nat (length (article_batch c ++ [a]))));
    cbn [queue article_batch]; (split; [now apply offer_links_bounded|]).
  - unfold BATCH_SIZE. simpl. lia.
  - assumption.
Qed.

Lemma worker_iteration_bounds {K : Collation}
    (fetch : gset str -> str -> option article) (c c' : crawler) :
  worker_iteration fetch c = Some c' ->
  (Z.of_nat (length (queue c)) <= QUEUE_LIMIT)%Z ->
  (Z.of_nat (length (article_batch c)) < BATCH_SIZE)%Z ->
  (Z.of_nat (length (queue c')) <= QUEUE_LIMIT)%Z /\
  (Z.of_nat (length (article_batch c')) < BATCH_SIZE)%Z.
Proof.
  unfold worker_iteration. destruct (MAX_ARTICLES <=? _)%Z; [discriminate|].
  destruct (queue c) as [|current rest] eqn:Hq; [discriminate|].
  intros Hc' Hlen Hb. simpl in Hlen.
  destruct (decide (current ∈ visited c)); injection Hc' as <-.
  - cbn [queue article_batch]. split; [lia|exact Hb].
  - apply record_result_bounds; cbn [queue article_batch]; [lia|exact Hb].
Qed.

(** X12. Run alone from a queue of at most 50000 titles and a batch buffer
    below the batch size, a worker keeps both bounds through every pass:
    the queue never holds more than 50000 titles and the buffer never
    reaches 100 articles. *)
Theorem worker_thread_bounds {K : Collation} (fuel : nat)
    (fetch : gset str -> str -> option article) (c : crawler) :
  (Z.of_nat (length (queue c)) <= QUEUE_LIMIT)%Z ->
  (Z.of_nat (length (article_batch c)) < BATCH_SIZE)%Z ->
  (Z.of_nat (length (queue (worker_thread fuel fetch c))) <= QUEUE_LIMIT)%Z /\
  (Z.of_nat (length (article_batch (worker_thread fuel fetch c))) < BATCH_SIZE)%Z.
Proof.
  revert c. induction fuel as [|fuel IH]; intros c Hq Hb; [now split|].
  cbn [worker_thread]. destruct (worker_iteration fetch c) as [c'|] eqn:Hit;
    [|now split].
  destruct (worker_iteration_bounds fetch c c' Hit Hq Hb) as [Hq' Hb'].
  now apply IH.
Qed.

Lemma worker_thread_bounds_witness :
  (Z.of_nat (length (queue (worker_thread 3 example_fetch
                              (populate_initial_queue example_members fresh_crawler))))
   <= QUEUE_LIMIT)%Z.
Proof.
  apply (worker_thread_bounds 3 example_fetch
           (populate_initial_queue example_members fresh_crawler)).
  - vm_compute. discriminate.
  - vm_compute. reflexivity.
Defined.

(** X13. Every title a pass takes from the queue is in the visited set after
    the pass, whether it was fetched, rejected or skipped, and the visited
    set never loses a title. *)
Theorem worker_iteration_marks_visited {K : Collation}
    (fetch : gset str -> str -> option article) (c c' : crawler) :
  worker_iteration fetch c = Some c' ->
  exists current rest,
    queue c = current :: rest /\ current ∈ visited c' /\ visited c ⊆ visited c'.
Proof.
  unfold worker_iteration. destruct (MAX_ARTICLES <=? _)%Z; [discriminate|].
  destruct (queue c) as [|current rest]; [discriminate|].
  intros Hc'. exists current, rest. split; [reflexivity|].
  destruct (decide (current ∈ visited c)) as [Hin|Hout]; injection Hc' as <-.
  - cbn [visited]. split; [exact Hin|reflexivity].
  - rewrite visited_record_result. cbn [visited]. split; set_solver.
Qed.

Lemma worker_iteration_marks_visited_witness :
  exists current rest,
    queue (populate_initial_queue example_members fresh_crawler) = current :: rest /\
    current ∈ visited (record_result example_title
                         (example_fetch ∅ example_title)
                         {| visited := ∅;
                            queue := repeat example_title 9;
                            article_batch := []; db := empty_database [] |}) /\
    visited (populate_initial_queue example_members fresh_crawler)
    ⊆ visited (record_result example_title
                 (example_fetch ∅ example_title)
                 {| visited := ∅;
                    queue := repeat example_title 9;
                    article_batch := []; db := empty_database [] |}).
Proof.
  apply (worker_iteration_marks_visited example_fetch
           (populate_initial_queue example_members fresh_crawler)).
  reflexivity.
Defined.

Lemma record_result_holds {K : Collation} (current : str) (r : option article)
    (c : crawler) :
  faults (db c) = [] ->
  faults (db (record_result current r c)) = [] /\
  (forall t, holds c t -> holds (record_result current r c) t) /\
  (forall a, r = Some a -> holds (record_result current r c) (firstn 255 (title a))).
Proof.
  intros Hf. unfold record_result. destruct r as [a|].
  2:{ split; [exact Hf|]. split; [auto|discriminate]. }
  destruct (BATCH_SIZE <=? _)%Z.
  - unfold holds. cbn [article_batch db]. unfold batch_insert_articles.
    destruct (article_batch c ++ [a]) as [|a0 rest] eqn:Eb;
      [destruct (article_batch c); discriminate|].
    rewrite Hf. cbn [rows faults]. rewrite <- Eb.
    destruct (insert_all_spec (map sanitize (article_batch c ++ [a])) (rows (db c)))
      as [new [Heq [_ [_ Hall]]]].
    rewrite List.Forall_forall in Hall.
    assert (Hin : forall x, In x (article_batch c ++ [a]) ->
              has_title (firstn 255 (title x))
                (fold_left insert_ignore
                   (map sanitize (article_batch c ++ [a])) (rows (db c))) = true).
    { intros x Hx. apply (Hall (sanitize x)). now apply in_map. }
    split; [reflexivity|]. split.
    + intros t [[x [Hx Hk]]|Ht]; right.
      * apply (has_title_same_key (firstn 255 (title x))); [exact Hk|].
        apply Hin. apply in_app_iff. now left.
      * rewrite Heq. now apply has_title_app.
    + intros x [= <-]. right. apply Hin. apply in_app_iff. right. now left.
  - unfold holds. cbn [article_batch db]. split; [exact Hf|]. split.
    + intros t [[x [Hx Hk]]|Ht]; [left|now right].
      exists x. split; [apply in_app_iff; now left|exact Hk].
    + intros x [= <-]. left. exists a. split; [apply in_app_iff; right; now left|].
      apply same_key_refl.
Qed.




(** The same on a table that stores the title in another case: the article
    fetched as "alan turing" is dropped at the flush, and the row "Alan
    Turing" holds its title under the key. *)
Example holds_case_variant :
  has_title (lit "alan turing") [sanitize example_article] = true /\
  insert_ignore [sanitize example_article]
    (sanitize (example_fetched (lit "alan turing")))
  = [sanitize example_article].
Proof. split; reflexivity. Qed.

(** X15. While no database write fails, the title of the article a pass
    fetches is held at the end of the pass, up to the comparison of the key:
    by the article itself in the batch buffer or, when the pass flushed the
    buffer, by a row of the table. *)
Theorem worker_iteration_holds_fetched {K : Collation}
    (fetch : gset str -> str -> option article)
    (c : crawler) (current : str) (rest : list str) (a : article) :
  faults (db c) = [] ->
  (Z.of_nat (size (visited c)) < MAX_ARTICLES)%Z ->
  queue c = current :: rest ->
  current ∉ visited c ->
  fetch (visited c) current = Some a ->
  exists c', worker_iteration fetch c = Some c' /\ holds c' (firstn 255 (title a)).
Proof.
  intros Hf Hmax Hq Hout Hfetch. unfold worker_iteration.
  destruct (Z.leb_spec MAX_ARTICLES (Z.of_nat (size (visited c)))); [lia|].
  rewrite Hq. destruct (decide (current ∈ visited c)); [contradiction|].
  eexists. split; [reflexivity|]. rewrite Hfetch.
  now apply record_result_holds.
Qed.

Lemma worker_iteration_holds_fetched_witness :
  exists c',
    worker_iteration example_fetch
      (populate_initial_queue example_members fresh_crawler) = Some c' /\
    holds c' (firstn 255 (title (example_fetched example_title))).
Proof.
  apply (worker_iteration_holds_fetched example_fetch
           (populate_initial_queue example_members fresh_crawler)
           example_title (repeat example_title 9)).
  - reflexivity.
  - vm_compute. reflexivity.
  - reflexivity.
  - apply not_elem_of_empty.
  - vm_compute. reflexivity.
Defined.

(** ** Titles already stored *)

(** X16. Once [load_existing_articles] has run, a title that has a row in
    the table is never fetched or queued again: [fetch_article] returns
    nothing for it without consulting the endpoints, and neither a worker's
    offer nor the seeding appends it to the queue. *)
Theorem load_existing_articles_dedup (lower : str -> str)
    (clean : str -> str)
    (get_summary : str -> response summary_data)
    (get_content : str -> response content_data)
    (members : str -> list (str * Z))
    (c : crawler) (r : stored) (q : list str) :
  In r (rows (db c)) ->
  fetch_article lower clean get_summary get_content
    (visited (load_existing_articles c)) (st_title r) = None /\
  offer_link (visited (load_existing_articles c)) q (st_title r) = q /\
  seed_member members (visited (load_existing_articles c)) q (st_title r, 0%Z) = q.
Proof.
  intros Hr.
  assert (Hin : st_title r ∈ visited (load_existing_articles c)).
  { cbn [load_existing_articles visited]. apply elem_of_union. right.
    apply elem_of_list_to_set, list_elem_of_In. now apply in_map. }
  split; [|split].
  - unfold fetch_article. now destruct (decide _).
  - unfold offer_link. now rewrite bool_decide_eq_false_2 by tauto.
  - unfold seed_member. cbn [fst snd].
    rewrite bool_decide_eq_false_2 by tauto. reflexivity.
Qed.

Lemma load_existing_articles_dedup_witness :
  fetch_article ascii_lower (fun html => html) example_get_summary example_get_content
    (visited (load_existing_articles
                {| visited := ∅; queue := []; article_batch := [];
                   db := {| rows := [sanitize example_article]; faults := [];
                            executemany_calls := 1; log := [] |} |}))
    (st_title (sanitize example_article)) = None.
Proof.
  apply (load_existing_articles_dedup ascii_lower (fun html => html)
           example_get_summary example_get_content example_members
           {| visited := ∅; queue := []; article_batch := [];
              db := {| rows := [sanitize example_article]; faults := [];
                       executemany_calls := 1; log := [] |} |}
           (sanitize example_article) []).
  now left.
Defined.

(** ** Seeding *)

Lemma seed_sub_members_spec (seen : gset str) (ms : list (str * Z)) (q : list str) :
  exists added,
    fold_left (seed_sub_member seen) ms q = q ++ added /\
    Forall (fun t => (t ∉ seen) /\ In (t, 0%Z) ms) added.
Proof.
  revert q. induction ms as [|m ms IH]; intros q.
  - exists []. now rewrite app_nil_r.
  - cbn [fold_left]. unfold seed_sub_member at 2.
    destruct ((snd m =? 0)%Z && bool_decide (fst m ∉ seen)) eqn:E.
    + destruct (IH (q ++ [fst m])) as [added [-> Hadd]].
      exists (fst m :: added). rewrite <- app_assoc. split; [reflexivity|].
      apply andb_true_iff in E as [E1 E2].
      apply Z.eqb_eq in E1. apply bool_decide_eq_true in E2.
      constructor.
      * split; [exact E2|]. left. destruct m as [t ns]. simpl in *. now subst.
      * eapply List.Forall_impl; [|exact Hadd]. intros t [H1 H2]. split; [exact H1|now right].
    + destruct (IH q) as [added [-> Hadd]]. exists added. split; [reflexivity|].
      eapply List.Forall_impl; [|exact Hadd]. intros t [H1 H2]. split; [exact H1|now right].
Qed.

Lemma seed_member_spec (members : str -> list (str * Z)) (seen : gset str)
    (q : list str) (m : str * Z) :
  exists added,
    seed_member members seen q m = q ++ added /\ Forall (fun t => t ∉ seen) added.
Proof.
  unfold seed_member.
  destruct ((snd m =? 0)%Z && bool_decide (fst m ∉ seen)) eqn:E.
  - exists [fst m]. split; [reflexivity|]. constructor; [|constructor].
    apply andb_true_iff in E as [_ E]. now apply bool_decide_eq_true in E.
  - destruct (snd m =? 14)%Z.
    + destruct (seed_sub_members_spec seen (firstn 50 (members (fst m))) q)
        as [added [-> Hadd]].
      exists added. split; [reflexivity|].
      eapply List.Forall_impl; [|exact Hadd]. now intros t [H _].
    + exists []. now rewrite app_nil_r.
Qed.

Lemma seed_members_spec (members : str -> list (str * Z)) (seen : gset str)
    (ms : list (str * Z)) (q : list str) :
  exists added,
    fold_left (seed_member members seen) ms q = q ++ added /\
    Forall (fun t => t ∉ seen) added.
Proof.
  revert q. induction ms as [|m ms IH]; intros q.
  - exists []. now rewrite app_nil_r.
  - cbn [fold_left]. destruct (seed_member_spec members seen q m) as [a1 [-> H1]].
    destruct (IH (q ++ a1)) as [a2 [-> H2]]. exists (a1 ++ a2).
    rewrite <- app_assoc. split; [reflexivity|]. apply Forall_app. now split.
Qed.

(** X17. Seeding only appends: the queue after [populate_initial_queue] is
    the queue before it followed by the titles added, none of which is in
    the visited set; the visited set, the batch buffer and the table are
    left as they were. *)
Theorem populate_initial_queue_appends (members : str -> list (str * Z)) (c : crawler) :
  exists added,
    queue (populate_initial_queue members c) = queue c ++ added /\
    Forall (fun t => t ∉ visited c) added /\
    visited (populate_initial_queue members c) = visited c /\
    article_batch (populate_initial_queue members c) = article_batch c /\
    db (populate_initial_queue members c) = db c.
Proof.
  unfold populate_initial_queue. cbn [queue visited article_batch db].
  assert (H : forall cats q, exists added,
             fold_left (fun q0 category =>
                          fold_left (seed_member members (visited c))
                                    (members category) q0) cats q = q ++ added /\
             Forall (fun t => t ∉ visited c) added).
  { induction cats as [|cat cats IH]; intros q.
    - exists []. now rewrite app_nil_r.
    - cbn [fold_left].
      destruct (seed_members_spec members (visited c) (members cat) q) as [a1 [-> H1]].
      destruct (IH (q ++ a1)) as [a2 [-> H2]]. exists (a1 ++ a2).
      rewrite <- app_assoc. split; [reflexivity|]. apply Forall_app. now split. }
  destruct (H SEED_CATEGORIES (queue c)) as [added [Heq Hadd]].
  exists added. now repeat split.
Qed.

(** ** What a fetched article is *)

(** X18. An article that [fetch_article] returns was not visited, both
    endpoints answered with status 200, and it passed the quality filter:
    its content has at least 1000 code points and its summary at least 100.
    Its clean content is the stripped page, and its word count the number
    of whitespace-separated words of the clean content. *)
Theorem fetch_article_some (lower : str -> str) (clean : str -> str)
    (get_summary : str -> response summary_data)
    (get_content : str -> response content_data)
    (seen : gset str) (t : str) (a : article) :
  fetch_article lower clean get_summary get_content seen t = Some a ->
  (t ∉ seen) /\
  (exists sd cd, get_summary t = Resp 200 sd /\ get_content t = Resp 200 cd /\
                 title a = sd_title sd /\ summary a = sd_extract sd /\
                 content a = cd_text cd) /\
  is_quality_article lower (title a) (content a) (summary a) = true /\
  1000 <= length (content a) /\
  100 <= length (summary a) /\
  clean_content a = clean (content a) /\
  word_count a = length (split (clean_content a)).
Proof.
  unfold fetch_article. intros Hf.
  destruct (decide (t ∈ seen)) as [|Hout]; [discriminate|].
  destruct (get_summary t) as [ss sd|]; [|discriminate].
  destruct (Z.eqb_spec ss 200) as [->|]; [|discriminate].
  destruct (get_content t) as [cs cd|]; [|discriminate].
  destruct (Z.eqb_spec cs 200) as [->|]; [|discriminate]. cbn [negb] in Hf.
  destruct (is_quality_article lower (sd_title sd) (cd_text cd) (sd_extract sd))
    eqn:Hq; [|discriminate].
  destruct (linked_titles_of (cd_links cd)) as [ts|]; [|discriminate].
  injection Hf as <-. cbn [title summary content clean_content word_count].
  split; [exact Hout|]. split; [exists sd, cd; now repeat split|].
  split; [exact Hq|].
  unfold is_quality_article in Hq.
  destruct (existsb _ skip_patterns); [discriminate|].
  destruct (Nat.ltb_spec (length (cd_text cd)) 1000); [discriminate|].
  destruct (Nat.ltb_spec (length (sd_extract sd)) 100); [discriminate|].
  now repeat split.
Qed.

Lemma fetch_article_some_witness :
  1000 <= length (content (example_fetched example_title)).
Proof.
  apply (fetch_article_some ascii_lower (fun html => html)
           example_get_summary example_get_content ∅ example_title
           (example_fetched example_title)).
  vm_compute. reflexivity.
Defined.

(** ** The final batch insert *)



(** ** More on ranked search *)

Lemma collect_hits_filter (ids : list Z) (db : Z -> option row) (sims : list Q)
    (idxs : list nat) :
  Forall (fun i => i < length ids) idxs ->
  exists hits,
    collect_hits ids db sims idxs = Returns hits /\
    Forall2 (hit_of ids sims) hits (List.filter (qualifies ids db sims) idxs).
Proof.
  induction 1 as [|i idxs Hi Hidxs [hits [Heq Hof]]].
  - exists []. split; [reflexivity|constructor].
  - cbn [collect_hits List.filter]. cbv zeta. unfold qualifies at 1.
    destruct (Qgtb (score_at sims i) min_relevance); cbn [andb]; [|eauto].
    destruct (nth_error ids i) as [id|] eqn:Hid;
      [|apply nth_error_None in Hid; lia].
    destruct (db id) as [r|]; [|eauto].
    rewrite Heq. cbn [bind_outcome]. eexists. split; [reflexivity|].
    constructor; [|exact Hof]. split; [exact Hid|reflexivity].
Qed.

Lemma top_indices_in_range `{Argsort} (m : SearchModel) (sims : list Q) (limit : Z) :
  length sims = length (article_ids m) ->
  Forall (fun i => i < length (article_ids m))
    (rev (py_slice_from limit (argsort sims))).
Proof.
  intros Hlen. rewrite List.Forall_forall. intros i Hi.
  apply in_rev in Hi. apply list_elem_of_In in Hi.
  eapply elem_of_sublist in Hi; [|apply py_slice_from_sublist].
  apply list_elem_of_In in Hi.
  apply (Permutation_in _ (argsort_perm sims)) in Hi.
  apply in_seq in Hi. lia.
Qed.

Lemma advanced_search_filter `{Argsort} (lower : str -> str) (m : SearchModel)
    (db : Z -> option row) (query : str) (limit : Z) :
  well_formed m ->
  exists hits,
    advanced_search lower (Some m) db query limit = Returns hits /\
    Forall2 (hit_of (article_ids m)
               (query_similarities m (preprocess_text lower query))) hits
      (List.filter
         (qualifies (article_ids m) db
            (query_similarities m (preprocess_text lower query)))
         (rev (py_slice_from (- limit)
                 (argsort (query_similarities m (preprocess_text lower query)))))).
Proof.
  intros [Hwf _]. unfold advanced_search. apply collect_hits_filter.
  apply top_indices_in_range. apply Hwf.
Qed.

Lemma Forall2_In_r {A B} (P : A -> B -> Prop) (l : list A) (k : list B) (y : B) :
  Forall2 P l k -> In y k -> exists x, In x l /\ P x y.
Proof.
  induction 1 as [|a b l k Hab Hlk IH]; [intros []|].
  intros [<-|Hy]; [exists a; split; [now left|exact Hab]|].
  destruct (IH Hy) as [x [Hx Hp]]. exists x. split; [now right|exact Hp].
Qed.

Lemma Forall2_In_l {A B} (P : A -> B -> Prop) (l : list A) (k : list B) (x : A) :
  Forall2 P l k -> In x l -> exists y, In y k /\ P x y.
Proof.
  induction 1 as [|a b l k Hab Hlk IH]; [intros []|].
  intros [<-|Hx]; [exists b; split; [now left|exact Hab]|].
  destruct (IH Hx) as [y [Hy Hp]]. exists y. split; [now right|exact Hp].
Qed.

Lemma StronglySorted_app_order {A} (R : A -> A -> Prop) (l1 l2 : list A) (x y : A) :
  StronglySorted R (l1 ++ l2) -> In x l1 -> In y l2 -> R x y.
Proof.
  induction l1 as [|a l1 IH]; [intros _ []|].
  intros Hs Hx Hy. inversion Hs as [|? ? Hs' Ha]; subst.
  destruct Hx as [<-|Hx]; [|now apply IH].
  rewrite List.Forall_forall in Ha. apply Ha. apply in_app_iff. now right.
Qed.

Lemma argsort_NoDup `{Argsort} (sims : list Q) : NoDup (argsort sims).
Proof.
  apply NoDup_ListNoDup.
  apply (Permutation_NoDup (Permutation_sym (argsort_perm sims))).
  apply seq_NoDup.
Qed.

Lemma hits_distinct (ids : list Z) (sims : list Q) (hits : list hit) (kept : list nat) :
  NoDup ids -> NoDup kept -> Forall2 (hit_of ids sims) hits kept ->
  NoDup (map hit_id hits).
Proof.
  intros Hids Hk Hof. induction Hof as [|h i hits kept [Hid _] Hrest IH];
    [constructor|].
  apply NoDup_cons in Hk as [Hi Hk]. cbn [map]. apply NoDup_cons.
  split; [|now apply IH].
  intros Hin. apply list_elem_of_In, in_map_iff in Hin as [h' [Heq Hh']].
  destruct (Forall2_In_l _ _ _ _ Hrest Hh') as [j [Hj [Hjd _]]].
  apply Hi. apply list_elem_of_In. rewrite <- Heq in Hid.
  apply NoDup_ListNoDup in Hids.
  assert (i = j); [|now subst].
  apply (proj1 (NoDup_nth_error ids) Hids).
  - apply nth_error_Some. congruence.
  - congruence.
Qed.

(** X20. When the indexed ids are distinct, no article appears twice in the
    result of a search, whatever the limit. *)
Theorem advanced_search_distinct `{Argsort} (lower : str -> str) (m : SearchModel)
    (db : Z -> option row) (query : str) (limit : Z) (hits : list hit) :
  well_formed m ->
  NoDup (article_ids m) ->
  advanced_search lower (Some m) db query limit = Returns hits ->
  NoDup (map hit_id hits).
Proof.
  intros Hwf Hids Heq.
  destruct (advanced_search_kept lower m db query limit Hwf)
    as [hits' [kept [Heq' [Hsub [Hof _]]]]].
  rewrite Heq in Heq'. injection Heq' as <-.
  eapply (hits_distinct _ _ hits kept Hids); [|exact Hof].
  refine (sublist_NoDup _ _ _ Hsub).
  refine (sublist_NoDup _ _ _ (top_indices_sublist limit _)).
  apply NoDup_ListNoDup, List.NoDup_rev, NoDup_ListNoDup, argsort_NoDup.
Qed.

Lemma advanced_search_distinct_witness :
  NoDup (map hit_id
           [mk_hit 2 {| row_title := lit "t"; row_summary := lit "s";
                        row_url := lit "u"; row_word_count := 0 |} (1 # 2);
            mk_hit 1 {| row_title := lit "t"; row_summary := lit "s";
                        row_url := lit "u"; row_word_count := 0 |} (1 # 2)]).
Proof.
  apply (advanced_search_distinct ascii_lower example_model example_db (lit "q") 2).
  - split; intros; reflexivity.
  - apply NoDup_ListNoDup. repeat constructor; simpl; intuition discriminate.
  - reflexivity.
Defined.

(** X21. A search leaves out a qualifying article only for articles that
    score at least as high: every indexed position above the threshold
    with a row in the store is either among the hits or scores no higher
    than every hit, whatever the limit. *)
Theorem advanced_search_top `{Argsort} (lower : str -> str) (m : SearchModel)
    (db : Z -> option row) (query : str) (limit : Z) (hits : list hit) (j : nat) :
  well_formed m ->
  advanced_search lower (Some m) db query limit = Returns hits ->
  j < length (article_ids m) ->
  qualifies (article_ids m) db
    (query_similarities m (preprocess_text lower query)) j = true ->
  (exists h, In h hits /\
             hit_of (article_ids m)
               (query_similarities m (preprocess_text lower query)) h j)
  \/ (forall h, In h hits ->
        (score_at (query_similarities m (preprocess_text lower query)) j
         <= hit_score h)%Q).
Proof.
  intros Hwf Heq Hj Hqual.
  destruct (advanced_search_filter lower m db query limit Hwf) as [hits' [Heq' Hof]].
  rewrite Heq in Heq'. injection Heq' as <-.
  set (sims := query_similarities m (preprocess_text lower query)) in *.
  unfold py_slice_from in Hof.
  set (n := Z.to_nat _) in Hof.
  assert (Hin : In j (firstn n (argsort sims) ++ skipn n (argsort sims))).
  { rewrite firstn_skipn.
    apply (Permutation_in _ (Permutation_sym (argsort_perm sims))).
    apply in_seq. destruct Hwf as [Hwf _]. unfold sims. rewrite Hwf. lia. }
  apply in_app_iff in Hin as [Hlow|Htop].
  - right. intros h Hh.
    destruct (Forall2_In_l _ _ _ _ Hof Hh) as [i [Hi [_ ->]]].
    apply filter_In in Hi as [Hi _]. apply in_rev in Hi.
    apply (StronglySorted_app_order
             (fun a b => (score_at sims a <= score_at sims b)%Q)
             (firstn n (argsort sims)) (skipn n (argsort sims)) j i); auto.
    rewrite firstn_skipn. apply argsort_sorted.
  - left. apply (Forall2_In_r _ _ _ _ Hof).
    apply filter_In. split; [|exact Hqual]. now apply in_rev in Htop.
Qed.

Lemma advanced_search_top_witness :
  (exists h,
     In h [mk_hit 2 {| row_title := lit "t"; row_summary := lit "s";
                       row_url := lit "u"; row_word_count := 0 |} (1 # 2)] /\
     hit_of (article_ids example_model)
       (query_similarities example_model (preprocess_text ascii_lower (lit "q"))) h 2)
  \/ (forall h,
        In h [mk_hit 2 {| row_title := lit "t"; row_summary := lit "s";
                          row_url := lit "u"; row_word_count := 0 |} (1 # 2)] ->
        (score_at (query_similarities example_model
                     (preprocess_text ascii_lower (lit "q"))) 2
         <= hit_score h)%Q).
Proof.
  apply (advanced_search_top ascii_lower example_model example_db (lit "q") 1).
  - split; intros; reflexivity.
  - reflexivity.
  - simpl. lia.
  - reflexivity.
Defined.

(** X22. With limit 0, as with any limit that reaches the number of indexed
    articles, a search returns the complete ranking: one hit for every
    qualifying position, in reversed argsort order. *)
Theorem advanced_search_complete `{Argsort} (lower : str -> str) (m : SearchModel)
    (db : Z -> option row) (query : str) (limit : Z) :
  well_formed m ->
  limit = 0%Z \/ (Z.of_nat (length (article_ids m)) <= limit)%Z ->
  exists hits,
    advanced_search lower (Some m) db query limit = Returns hits /\
    Forall2 (hit_of (article_ids m)
               (query_similarities m (preprocess_text lower query))) hits
      (List.filter
         (qualifies (article_ids m) db
            (query_similarities m (preprocess_text lower query)))
         (rev (argsort (query_similarities m (preprocess_text lower query))))).
Proof.
  intros Hwf Hlimit.
  destruct (advanced_search_filter lower m db query limit Hwf) as [hits [Heq Hof]].
  exists hits. split; [exact Heq|].
  set (sims := query_similarities m (preprocess_text lower query)) in *.
  assert (Hlen : length (argsort sims) = length (article_ids m)).
  { rewrite (Permutation_length (argsort_perm sims)), length_seq.
    destruct Hwf as [Hwf _]. apply Hwf. }
  replace (py_slice_from (- limit) (argsort sims)) with (argsort sims) in Hof;
    [exact Hof|].
  unfold py_slice_from. rewrite Hlen.
  destruct Hlimit as [->|Hbig]; [reflexivity|].
  destruct (Z.ltb_spec (- limit) 0).
  - now replace (Z.to_nat _) with 0 by lia.
  - now replace (Z.to_nat _) with 0 by lia.
Qed.

Lemma advanced_search_complete_witness :
  exists hits,
    advanced_search ascii_lower (Some example_model) example_db (lit "q") 0
    = Returns hits /\
    Forall2 (hit_of (article_ids example_model)
               (query_similarities example_model
                  (preprocess_text ascii_lower (lit "q")))) hits
      (List.filter
         (qualifies (article_ids example_model) example_db
            (query_similarities example_model
               (preprocess_text ascii_lower (lit "q"))))
         (rev (argsort (query_similarities example_model
                          (preprocess_text ascii_lower (lit "q")))))).
Proof.
  apply (advanced_search_complete ascii_lower example_model example_db (lit "q") 0).
  - split; intros; reflexivity.
  - now left.
Defined.

(** ** More on related articles *)

Lemma list_index_Some (x : Z) (l : list Z) (i : nat) :
  list_index x l = Some i -> nth_error l i = Some x.
Proof.
  revert i. induction l as [|y l IH]; intros i; [discriminate|]. cbn [list_index].
  destruct (Z.eqb_spec y x) as [->|_]; [now intros [= <-]|].
  destruct (list_index x l) as [k|]; [|discriminate].
  intros [= <-]. now apply IH.
Qed.

Lemma collect_related_spec (ids : list Z) (db : Z -> option row) (sims : list Q)
    (target_idx : nat) (idxs : list nat) :
  Forall (fun i => i < length ids) idxs ->
  exists hits kept,
    collect_related ids db sims target_idx idxs = Returns hits /\
    sublist kept idxs /\
    Forall2 (hit_of ids sims) hits kept /\
    Forall (fun i => i <> target_idx /\ (min_similarity < score_at sims i)%Q) kept.
Proof.
  induction 1 as [|i idxs Hi Hidxs IH].
  - exists [], []. repeat split; constructor.
  - destruct IH as [hits [kept [Heq [Hsub [Hof Hthr]]]]].
    cbn [collect_related].
    destruct (negb (i =? target_idx) && Qgtb (score_at sims i) min_similarity) eqn:Hc.
    + apply andb_true_iff in Hc as [Hne Hgt].
      apply negb_true_iff, Nat.eqb_neq in Hne. apply Qgtb_spec in Hgt.
      destruct (nth_error ids i) as [id|] eqn:Hid;
        [|apply nth_error_None in Hid; lia].
      destruct (db id) as [r|].
      * rewrite Heq. cbn [bind_outcome].
        exists (mk_hit id r (score_at sims i) :: hits), (i :: kept).
        repeat split; [now constructor| |constructor; [now split|exact Hthr]].
        constructor; [|exact Hof]. now split.
      * exists hits, kept. repeat split; auto. now constructor.
    + exists hits, kept. repeat split; auto. now constructor.
Qed.

Lemma min_similarity_above : (1 # 10 < min_similarity)%Q.
Proof. reflexivity. Qed.

(** X23. For an indexed article, distinct indexed ids and a limit of at
    least 0, [get_related_articles] returns at most [limit] articles, never
    the article itself, each with a similarity above 0.1, in non-increasing
    order of similarity. *)
Theorem get_related_articles_spec `{Argsort} (m : SearchModel) (db : Z -> option row)
    (article_id : Z) (limit : Z) :
  well_formed m ->
  NoDup (article_ids m) ->
  In article_id (article_ids m) ->
  (0 <= limit)%Z ->
  exists hits,
    get_related_articles (Some m) db article_id limit = Returns hits /\
    (Z.of_nat (length hits) <= limit)%Z /\
    Forall (fun h => hit_id h <> article_id /\ (1 # 10 < hit_score h)%Q) hits /\
    StronglySorted (fun a b => (hit_score b <= hit_score a)%Q) hits.
Proof.
  intros [_ Hwf] Hids Hin Hlimit. unfold get_related_articles.
  destruct (list_index article_id (article_ids m)) as [t|] eqn:Hidx;
    [|now apply list_index_None in Hidx].
  apply list_index_Some in Hidx.
  set (sims := row_similarities m t).
  set (top := rev (py_slice_from (- limit - 1) (argsort sims))).
  assert (Hrange : Forall (fun i => i < length (article_ids m)) top)
    by (apply top_indices_in_range; apply Hwf).
  destruct (collect_related_spec (article_ids m) db sims t top Hrange)
    as [hits [kept [-> [Hsub [Hof Hthr]]]]].
  cbn [bind_outcome]. eexists. split; [reflexivity|].
  unfold py_slice_to. destruct (Z.ltb_spec limit 0); [lia|].
  assert (Hpre : sublist (firstn (Z.to_nat limit) hits) hits) by apply sublist_take.
  split; [rewrite length_firstn; lia|]. split.
  - rewrite List.Forall_forall. intros h Hh.
    apply list_elem_of_In in Hh. eapply elem_of_sublist in Hh; [|exact Hpre].
    apply list_elem_of_In in Hh.
    destruct (Forall2_In_l _ _ _ _ Hof Hh) as [i [Hi [Hid Hscore]]].
    rewrite List.Forall_forall in Hthr. destruct (Hthr i Hi) as [Hne Hgt].
    split.
    + intros Heq. apply Hne. apply NoDup_ListNoDup in Hids.
      apply (proj1 (NoDup_nth_error (article_ids m)) Hids).
      * apply nth_error_Some. congruence.
      * congruence.
    + rewrite Hscore. eapply Qlt_trans; [exact min_similarity_above|exact Hgt].
  - apply (StronglySorted_sublist _ _ hits Hpre).
    apply (hits_sorted (article_ids m) sims hits kept Hof).
    apply (StronglySorted_sublist _ kept (rev (argsort sims))).
    + etransitivity; [exact Hsub|]. apply sublist_rev, py_slice_from_sublist.
    + apply (StronglySorted_rev _ _ (argsort_sorted sims)).
Qed.

Lemma get_related_articles_spec_witness :
  exists hits,
    get_related_articles (Some example_model) example_db 2 10 = Returns hits /\
    (Z.of_nat (length hits) <= 10)%Z /\
    Forall (fun h => hit_id h <> 2%Z /\ (1 # 10 < hit_score h)%Q) hits /\
    StronglySorted (fun a b => (hit_score b <= hit_score a)%Q) hits.
Proof.
  apply (get_related_articles_spec example_model example_db 2 10).
  - split; intros; reflexivity.
  - apply NoDup_ListNoDup. repeat constructor; simpl; intuition discriminate.
  - simpl. tauto.
  - lia.
Defined.

(** ** More on suggestions *)

Lemma suggestions_matched_NoDup `{SqlEngine} (titles : list str) (q : str) :
  List.NoDup (order_by (suggestion_key q)
                (List.filter (suggestion_match q) (remove_dups titles))).
Proof.
  apply (Permutation_NoDup (Permutation_sym (order_by_perm _ _))).
  apply List.NoDup_filter, NoDup_ListNoDup, NoDup_remove_dups.
Qed.

(** X24. No title appears twice among the suggestions, even when the
    table lists it more than once. *)
Theorem search_suggestions_distinct `{SqlEngine} (titles : list str) (db_up : bool)
    (partial_query : str) (limit : Z) :
  NoDup (search_suggestions titles db_up partial_query limit).
Proof.
  unfold search_suggestions.
  destruct (length partial_query <? 2); [constructor|].
  destruct (negb db_up || (limit <? 0)%Z); [constructor|].
  refine (sublist_NoDup _ _ _ (sublist_take _ _)).
  apply NoDup_ListNoDup, suggestions_matched_NoDup.
Qed.

(** X25. When the store answers, the partial query has at least 2 code
    points and the limit reaches the number of titles in the table, the
    suggestions are all the matching titles of the table, each once. *)
Theorem search_suggestions_complete `{SqlEngine} (titles : list str)
    (partial_query : str) (limit : Z) :
  2 <= length partial_query ->
  (Z.of_nat (length titles) <= limit)%Z ->
  Permutation (search_suggestions titles true partial_query limit)
    (List.filter (suggestion_match partial_query) (remove_dups titles)).
Proof.
  intros Hq Hlimit. unfold search_suggestions.
  destruct (Nat.ltb_spec (length partial_query) 2); [lia|].
  destruct (Z.ltb_spec limit 0); [lia|]. cbn [negb orb].
  rewrite firstn_all2; [apply order_by_perm|].
  rewrite (Permutation_length (order_by_perm _ _)).
  assert (Hlen : length (remove_dups titles) <= length titles).
  { apply NoDup_incl_length; [apply NoDup_ListNoDup, NoDup_remove_dups|].
    intros t Ht.
    apply list_elem_of_In, (elem_of_remove_dups titles t), list_elem_of_In.
    exact Ht. }
  pose proof (filter_length_le (suggestion_match partial_query) (remove_dups titles)).
  lia.
Qed.

Lemma search_suggestions_complete_witness :
  Permutation
    (search_suggestions (map lit ["Cat"; "Dog"; "Cat"]%string) true (lit "Ca") 3)
    (List.filter (suggestion_match (lit "Ca"))
       (remove_dups (map lit ["Cat"; "Dog"; "Cat"]%string))).
Proof.
  apply (search_suggestions_complete (map lit ["Cat"; "Dog"; "Cat"]%string) (lit "Ca") 3).
  - simpl. lia.
  - simpl. lia.
Defined.

(** ** A worker run alone, on the seeded queue *)

Lemma single_worker_requests_once_witness :
  exists s',
    run_schedule example_fetch [0; 0; 0; 0; 0; 0]
      {| shared := populate_initial_queue example_members fresh_crawler;
         workers := [AtLoopTop]; requested := [] |} = Some s' /\
    NoDup (requested s').
Proof.
  eexists. split; [vm_compute; reflexivity|].
  apply (single_worker_requests_once example_fetch [0; 0; 0; 0; 0; 0]
           (populate_initial_queue example_members fresh_crawler)).
  vm_compute. reflexivity.
Defined.
